(** * Autocomplete engine of frontend/app.js: trie, term index, loader,
      suggestion list and keyboard navigation.

    [frontend/app.js] exists in two revisions that share the trie and the
    rendering code.  The first one also indexes the tokens of a paper's
    title; the second one has that block commented out and adds the
    keyboard selection.  Both are embedded here, selected by [revision].

    Conventions of the embedding:
    - a JavaScript string is the sequence of code points that [for ... of]
      iterates over, each a number in [N];
    - [children] is made by [Object.create(null)]: a finite map;
    - [displayMap], [citationsMap] and the other objects made by [{}] are
      finite maps on their own properties, and a key that is not an own
      property is read from [Object.prototype];
    - a number is a double; the number fields of the records hold
      integers;
    - [String.prototype.toLowerCase] is a variable of the development:
      nothing below depends on what it computes; the text that
      [Function.prototype.toString] gives for a built-in function is a
      parameter of the definitions that need it. *)

From Stdlib Require Import ZArith NArith Lia.
From stdpp Require Import gmap list sorting strings.

#[local] Set Warnings "-register-all".
#[local] Open Scope Z_scope.

(** ** Strings *)

Abbreviation jsstring := (list N).

(** A string literal restricted to one-byte characters, for examples. *)
Definition str (s : string) : jsstring :=
  map Ascii.N_of_ascii (String.list_ascii_of_string s).

(** WhiteSpace and LineTerminator code points: what [trim] strips and what
    the class [\s] of a regular expression matches. *)
Definition is_ws (c : N) : bool :=
  ((9 <=? c) && (c <=? 13) || (c =? 32) || (c =? 0xA0) || (c =? 0x1680)
   || (0x2000 <=? c) && (c <=? 0x200A) || (c =? 0x2028) || (c =? 0x2029)
   || (c =? 0x202F) || (c =? 0x205F) || (c =? 0x3000) || (c =? 0xFEFF))%N.

Fixpoint trimStart (s : jsstring) : jsstring :=
  match s with
  | c :: s' => if is_ws c then trimStart s' else s
  | [] => []
  end.

Definition trim (s : jsstring) : jsstring :=
  rev (trimStart (rev (trimStart s))).

(** [s.split(/\s+/)]: [cur] is the piece being read, [sep] tells that the
    previous character belonged to a separator. *)
Fixpoint split_ws_from (cur : jsstring) (sep : bool) (s : jsstring)
  : list jsstring :=
  match s with
  | [] => [cur]
  | c :: s' =>
      if is_ws c
      then if sep then split_ws_from cur true s'
           else cur :: split_ws_from [] true s'
      else split_ws_from (cur ++ [c]) false s'
  end.

Definition split_ws (s : jsstring) : list jsstring := split_ws_from [] false s.

(** The lower-casing of the letters A-Z only; it agrees with [toLowerCase]
    on every string used in an example below. *)
Definition lower_char (c : N) : N :=
  if ((65 <=? c) && (c <=? 90))%N then (c + 32)%N else c.

Definition toLowerCase_ascii (s : jsstring) : jsstring := map lower_char s.

(** ** Order of the keys

    [Object.keys(node.children).sort()] has no comparison function: the
    keys, each one code point, are compared as sequences of UTF-16 code
    units. *)

Definition utf16 (cp : N) : list N :=
  if (cp <? 0x10000)%N then [cp]
  else [0xD800 + (cp - 0x10000) / 0x400; 0xDC00 + (cp - 0x10000) mod 0x400]%N.

Fixpoint units_compare (u v : list N) : comparison :=
  match u, v with
  | [], [] => Eq
  | [], _ :: _ => Lt
  | _ :: _, [] => Gt
  | a :: u', b :: v' =>
      match (a ?= b)%N with
      | Eq => units_compare u' v'
      | c => c
      end
  end.

Definition key_compare (a b : N) : comparison :=
  units_compare (utf16 a) (utf16 b).

Definition key_ltb (a b : N) : bool :=
  match key_compare a b with Lt => true | _ => false end.

Definition key_lt (a b : N) : Prop := key_compare a b = Lt.

(** Lexicographic order of two strings for an order [ltb] of the
    characters. *)
Fixpoint lex_ltb (ltb : N -> N -> bool) (u v : jsstring) : bool :=
  match u, v with
  | _, [] => false
  | [], _ :: _ => true
  | a :: u', b :: v' => ltb a b || (N.eqb a b && lex_ltb ltb u' v')
  end.

Definition lex_lt (ltb : N -> N -> bool) (u v : jsstring) : Prop :=
  lex_ltb ltb u v = true.

Definition lex_le (ltb : N -> N -> bool) (u v : jsstring) : Prop :=
  u = v \/ lex_lt ltb u v.

(** ** Trie *)

(** [children] lists the entries of the object in the order of
    [Object.keys(children).sort()]. *)
Inductive TrieNode : Type :=
  Node (isWord : bool) (children : list (N * TrieNode)).

Definition isWord (n : TrieNode) : bool := let (w, _) := n in w.
Definition children (n : TrieNode) : list (N * TrieNode) := let (_, cs) := n in cs.

(** [new TrieNode()] *)
Definition new_TrieNode : TrieNode := Node false [].

(** [children[ch]] *)
Fixpoint get_child (ch : N) (cs : list (N * TrieNode)) : option TrieNode :=
  match cs with
  | [] => None
  | (k, c) :: cs' => if (k =? ch)%N then Some c else get_child ch cs'
  end.

(** [children[ch] = c] *)
Fixpoint set_child (ch : N) (c : TrieNode) (cs : list (N * TrieNode))
  : list (N * TrieNode) :=
  match cs with
  | [] => [(ch, c)]
  | (k, c') :: cs' =>
      if (k =? ch)%N then (ch, c) :: cs'
      else if key_ltb ch k then (ch, c) :: (k, c') :: cs'
      else (k, c') :: set_child ch c cs'
  end.

(** The loop of [insert], from [node] on: the child for [ch] is created when
    it is missing, the walk goes on in it, and the last node is marked. *)
Fixpoint insert_from (chars : jsstring) (node : TrieNode) : TrieNode :=
  match chars with
  | [] => Node true (children node)
  | ch :: rest =>
      let child := default new_TrieNode (get_child ch (children node)) in
      Node (isWord node) (set_child ch (insert_from rest child) (children node))
  end.

Fixpoint _getNode (prefix : jsstring) (node : TrieNode) : option TrieNode :=
  match prefix with
  | [] => Some node
  | ch :: rest =>
      match get_child ch (children node) with
      | None => None
      | Some c => _getNode rest c
      end
  end.

Definition full (results : list jsstring) (limit : Z) : bool :=
  Z.of_nat (length results) >=? limit.

(** [_collect(node, prefix, results, limit)] returns the array [results]
    as the call leaves it. *)
Fixpoint _collect (node : TrieNode) (prefix : jsstring)
    (results : list jsstring) (limit : Z) {struct node} : list jsstring :=
  if full results limit then results
  else
    let results := if isWord node then results ++ [prefix] else results in
    (fix loop (cs : list (N * TrieNode)) (results : list jsstring)
       : list jsstring :=
       match cs with
       | [] => results
       | (k, c) :: cs' =>
           if full results limit then results
           else loop cs' (_collect c (prefix ++ [k]) results limit)
       end) (children node) results.

(** ** Numbers

    [Fin z] is the double whose value is the integer [z]. *)
Inductive Num : Set :=
  | Fin (z : Z)
  | Inf (positive : bool)
  | NaN.

#[global] Instance Num_eq_dec : EqDecision Num.
Proof. solve_decision. Defined.

(** The double nearest to the integer [z], ties going to the even
    significand, and Infinity from [2^1024 - 2^970] on. *)
Definition to_double (z : Z) : Num :=
  let a := Z.abs z in
  if a <=? 2 ^ 53 then Fin z
  else
    let e := Z.log2 a - 52 in
    let q := a / 2 ^ e in
    let r := a mod 2 ^ e in
    let q' :=
      if (2 * r >? 2 ^ e) || ((2 * r =? 2 ^ e) && Z.odd q) then q + 1 else q in
    if q' * 2 ^ e >=? 2 ^ 1024 then Inf (0 <? z)
    else Fin (Z.sgn z * (q' * 2 ^ e)).

(** [a + b] on numbers *)
Definition js_add (a b : Num) : Num :=
  match a, b with
  | Fin x, Fin y => to_double (x + y)
  | NaN, _ | _, NaN => NaN
  | Inf p, Inf q => if Bool.eqb p q then Inf p else NaN
  | Inf p, Fin _ | Fin _, Inf p => Inf p
  end.

(** [Math.max(a, b)] on numbers *)
Definition Math_max (a b : Num) : Num :=
  match a, b with
  | NaN, _ | _, NaN => NaN
  | Inf true, _ | _, Inf true => Inf true
  | Inf false, n | n, Inf false => n
  | Fin x, Fin y => Fin (Z.max x y)
  end.

(** A number with the sign of [a - b], and 0 where [a - b] is NaN: what
    [SortCompare] makes of the result of a comparison function. *)
Definition difference (a b : Num) : Z :=
  match a, b with
  | Fin x, Fin y => x - y
  | NaN, _ | _, NaN => 0
  | Inf p, Inf q => if Bool.eqb p q then 0 else if p then 1 else -1
  | Inf p, Fin _ => if p then 1 else -1
  | Fin _, Inf q => if q then -1 else 1
  end.

(** Whether a number, or a string, counts as true. *)
Definition truthy (n : Num) : bool :=
  match n with
  | Fin 0 | NaN => false
  | _ => true
  end.

Definition nonempty (s : jsstring) : bool :=
  match s with
  | [] => false
  | _ :: _ => true
  end.

(** ** Objects made by [{}]

    A finite map holds the own properties of the object.  The other keys
    are looked up in [Object.prototype]: its property [__proto__] is an
    accessor, the others are built-in functions. *)
Definition Object_prototype : list string :=
  [ "constructor"; "__defineGetter__"; "__defineSetter__"; "hasOwnProperty";
    "__lookupGetter__"; "__lookupSetter__"; "isPrototypeOf";
    "propertyIsEnumerable"; "toString"; "valueOf"; "__proto__";
    "toLocaleString" ]%string.

Definition inherited (k : jsstring) : bool :=
  bool_decide (k ∈ str <$> Object_prototype).

Definition proto : jsstring := str "__proto__".

(** The text that V8 gives for the functions of [Object.prototype], for the
    examples; the function under [constructor] is [Object]. *)
Definition native_code (name : jsstring) : jsstring :=
  str "function "
  ++ (if decide (name = str "constructor") then str "Object" else name)
  ++ str "() { [native code] }".

(** What [o[k] || d] evaluates to: a primitive value, or the object that
    [Object.prototype] has under [name], which is a function, or
    [Object.prototype] itself for [__proto__]. *)
Inductive Read (V : Type) : Type :=
  | Prim (v : V)
  | Proto (name : jsstring).

Arguments Prim {V} v.
Arguments Proto {V} name.

#[global] Instance Read_eq_dec `{EqDecision V} : EqDecision (Read V).
Proof. solve_decision. Defined.

(** [o[k] || d] *)
Definition get_or {V} (truth : V -> bool) (o : gmap jsstring V)
    (k : jsstring) (d : V) : Read V :=
  match o !! k with
  | Some v => Prim (if truth v then v else d)
  | None => if inherited k then Proto k else Prim d
  end.

(** [o[k] = v] for a primitive [v]: the setter of [__proto__] does nothing
    with a primitive, every other key becomes an own property. *)
Definition assign {V} (k : jsstring) (v : V) (o : gmap jsstring V)
  : gmap jsstring V :=
  if decide (k = proto) then o else <[k := v]> o.

(** [ToNumber]: an object of [Object.prototype] converts to a string that
    is no numeral. *)
Definition ToNumber (v : Read Num) : Num :=
  match v with
  | Prim n => n
  | Proto _ => NaN
  end.

(** [String(v)].  [Function_toString name] is the text that
    [Function.prototype.toString] gives for the built-in function
    [Object.prototype[name]]: the implementation chooses it, and the
    definitions that convert a term to a string take it as a parameter. *)
Definition String_ (Function_toString : jsstring -> jsstring)
    (v : Read jsstring) : jsstring :=
  match v with
  | Prim s => s
  | Proto name =>
      if decide (name = proto) then str "[object Object]"
      else Function_toString name
  end.

Section WithLowerCase.

Variable toLowerCase : jsstring -> jsstring.


Definition insert (word : jsstring) (root : TrieNode) : TrieNode :=
  match word with
  | [] => root
  | _ :: _ => insert_from (toLowerCase word) root
  end.

Definition suggestions (root : TrieNode) (prefix : jsstring) (limit : Z)
  : list jsstring :=
  match _getNode (toLowerCase prefix) root with
  | None => []
  | Some node => _collect node (toLowerCase prefix) [] limit
  end.

(** The trie after [insert] was called on each of [terms], in order. *)
Definition trie_of (terms : list jsstring) : TrieNode :=
  fold_left (fun t w => insert w t) terms new_TrieNode.


(** ** [Array.prototype.sort] with a comparison function

    The sort of an array is stable; with a consistent comparison function
    every stable sort returns the same array, here computed by insertion:
    [x] goes before [y] when [cmp x y <= 0]. *)

Fixpoint sort_insert {A} (cmp : A -> A -> Z) (x : A) (l : list A) : list A :=
  match l with
  | [] => [x]
  | y :: l' => if cmp x y <=? 0 then x :: l else y :: sort_insert cmp x l'
  end.

Fixpoint js_sort {A} (cmp : A -> A -> Z) (l : list A) : list A :=
  match l with
  | [] => []
  | x :: l' => sort_insert cmp x (js_sort cmp l')
  end.

(** ** Term index and corpus loader *)

Inductive revision : Set := Rev1 | Rev2.

(** The block that indexes the title's tokens is live in the first
    revision and commented out in the second. *)
Definition indexes_titles (r : revision) : bool :=
  match r with Rev1 => true | Rev2 => false end.

Definition BASE_API : string := "https://scholarsearch-backend.onrender.com".

Definition API_ALL (r : revision) : string :=
  match r with
  | Rev1 => BASE_API +:+ "/api/all"
  | Rev2 => "/api/all"
  end.

Definition FALLBACK_PAPERS : list string :=
  ["/papers"; "backend/papers.json"; "papers.json"]%string.

(** The fields of a paper that the loader reads; [None] is a missing or
    null field, and a keyword can be null too. *)
Record Paper : Type := {
  keywords : option (list (option jsstring));
  title : option jsstring;
  citations_count : option Z
}.

(** The three globals [trie], [displayMap] and [citationsMap]. *)
Record State : Type := {
  trie : TrieNode;
  displayMap : gmap jsstring jsstring;
  citationsMap : gmap jsstring Num
}.

Definition init : State :=
  {| trie := new_TrieNode; displayMap := ∅; citationsMap := ∅ |}.

(** The three statements shared by the keyword and the title paths:
    [trie.insert(t); displayMap[l] = t;
     citationsMap[l] = Math.max(citationsMap[l] || 0, cite)]. *)
Definition index_term (t : jsstring) (cite : Z) (st : State) : State :=
  let l := toLowerCase t in
  {| trie := insert t (trie st);
     displayMap := assign l t (displayMap st);
     citationsMap :=
       assign l
         (Math_max (ToNumber (get_or truthy (citationsMap st) l (Fin 0)))
            (Fin cite))
         (citationsMap st) |}.

(** The callback of [(p.keywords || []).forEach]. *)
Definition add_keyword (cite : Z) (st : State) (k : option jsstring) : State :=
  match k with
  | None => st
  | Some k =>
      match trim k with
      | [] => st
      | t => index_term t cite st
      end
  end.

(** The body of [for (const p of papers)]. *)
Definition add_paper (r : revision) (st : State) (p : Paper) : State :=
  let cite := default 0 (citations_count p) in
  let st := fold_left (add_keyword cite) (default [] (keywords p)) st in
  if indexes_titles r then
    match title p with
    | Some (c :: s) =>
        fold_left (fun st tok => index_term tok cite st) (split_ws (c :: s)) st
    | _ => st
    end
  else st.

(** [for (const p of papers) ...] *)
Definition index_papers (r : revision) (papers : list Paper) (st : State)
  : State :=
  fold_left (add_paper r) papers st.

(** What a [fetch] comes to: it throws, or gives a response with its [ok]
    flag whose [json()] throws ([None]) or yields the papers. *)
Inductive Response : Type :=
  | Rejected
  | Fetched (ok : bool) (json : option (list Paper)).

Definition papers_of (res : Response) : option (list Paper) :=
  match res with
  | Fetched true (Some ps) => Some ps
  | _ => None
  end.

(** The loop over the fallbacks: the addresses requested, and [papers]. *)
Fixpoint try_fallbacks (fetch : string -> Response) (urls : list string)
  : list string * list Paper :=
  match urls with
  | [] => ([], [])
  | p :: urls' =>
      match papers_of (fetch p) with
      | Some ps => ([p], ps)
      | None => let (reqs, ps) := try_fallbacks fetch urls' in (p :: reqs, ps)
      end
  end.

(** The addresses requested, in order, and the globals at the end. *)
Definition loadAllTermsAndBuildTrie (r : revision) (fetch : string -> Response)
    (st : State) : list string * State :=
  let papers := default [] (papers_of (fetch (API_ALL r))) in
  let (reqs, papers) :=
    match papers with
    | [] => try_fallbacks fetch FALLBACK_PAPERS
    | _ => ([], papers)
    end in
  (API_ALL r :: reqs,
   match papers with
   | [] => st
   | _ => index_papers r papers st
   end).

(** ** Suggestions *)

Record Suggestion : Type := {
  key : jsstring;
  term : Read jsstring;
  citations : Read Num
}.

(** [displayMap[k] || k] *)
Definition display_of (st : State) (k : jsstring) : Read jsstring :=
  get_or nonempty (displayMap st) k k.

(** [citationsMap[k] || 0] *)
Definition citations_of (st : State) (k : jsstring) : Read Num :=
  get_or truthy (citationsMap st) k (Fin 0).

Definition resolve (st : State) (k : jsstring) : Suggestion :=
  {| key := k; term := display_of st k; citations := citations_of st k |}.

(** [(a, b) => b.citations - a.citations], as the sort reads it: with a
    weight that is an object the difference is NaN, and the comparison
    function is not consistent; the order of the sorted array is then left
    to the implementation. *)
Definition by_citations (a b : Suggestion) : Z :=
  difference (ToNumber (citations b)) (ToNumber (citations a)).

(** The constant [list] of [renderSuggestions]. *)
Definition suggestion_list (st : State) (prefix : jsstring) : list Suggestion :=
  js_sort by_citations (resolve st <$> suggestions (trie st) prefix 8).

(** ** Panel and keyboard

    [shown] is [suggestionsEl.style.display !== 'none'], [items] holds the
    [data-term] of each [.suggestion-item], the string that its term
    converts to, and [searched] the query that [doSearch] navigated
    with. *)
Record UI : Type := {
  inputValue : jsstring;
  shown : bool;
  items : list jsstring;
  currentSelectionIndex : Z;
  searched : option jsstring
}.

Definition clearSuggestions (ui : UI) : UI :=
  {| inputValue := inputValue ui; shown := false; items := [];
     currentSelectionIndex := -1; searched := searched ui |}.

Definition renderSuggestions (Function_toString : jsstring -> jsstring)
    (st : State) (prefix : jsstring) (ui : UI) : UI :=
  match suggestion_list st prefix with
  | [] => clearSuggestions ui
  | list =>
      {| inputValue := inputValue ui; shown := true;
         items := (fun s => String_ Function_toString (term s)) <$> list;
         currentSelectionIndex := -1; searched := searched ui |}
  end.

Definition doSearch (ui : UI) : UI :=
  match trim (inputValue ui) with
  | [] => ui
  | q =>
      {| inputValue := inputValue ui; shown := shown ui; items := items ui;
         currentSelectionIndex := currentSelectionIndex ui; searched := Some q |}
  end.

(** The debounced listener of [input]. *)
Definition on_input (Function_toString : jsstring -> jsstring)
    (st : State) (ui : UI) : UI :=
  match trim (inputValue ui) with
  | [] => clearSuggestions ui
  | q => renderSuggestions Function_toString st q ui
  end.

Definition select (i : Z) (ui : UI) : UI :=
  {| inputValue := inputValue ui; shown := shown ui; items := items ui;
     currentSelectionIndex := i; searched := searched ui |}.

Definition accept (t : jsstring) (ui : UI) : UI :=
  clearSuggestions
    {| inputValue := t; shown := shown ui; items := items ui;
       currentSelectionIndex := currentSelectionIndex ui;
       searched := searched ui |}.

Inductive Key : Set := ArrowDown | ArrowUp | Enter | Escape | OtherKey.

(** The listener of [keydown] of the second revision. *)
Definition on_keydown (k : Key) (ui : UI) : UI :=
  let n := Z.of_nat (length (items ui)) in
  match k with
  | ArrowDown =>
      if shown ui && (n >? 0) then
        let i := currentSelectionIndex ui + 1 in
        select (if i >=? n then 0 else i) ui
      else ui
  | ArrowUp =>
      if shown ui && (n >? 0) then
        let i := currentSelectionIndex ui - 1 in
        select (if i <? 0 then n - 1 else i) ui
      else ui
  | Enter =>
      if (currentSelectionIndex ui >? -1) && shown ui then
        match items ui !! Z.to_nat (currentSelectionIndex ui) with
        | Some t => accept t ui
        | None => ui
        end
      else doSearch ui
  | Escape => clearSuggestions ui
  | OtherKey => ui
  end.

Definition press (ui : UI) (k : Key) : UI := on_keydown k ui.

(** ** Escaping

    [s.replace(/c/g, by)] for a pattern of one character. *)
Definition replace_all (c : N) (by_ : jsstring) (s : jsstring) : jsstring :=
  s ≫= fun x => if (x =? c)%N then by_ else [x].

(** [escapeHtml] of app.js and results.js, on a string or a missing value:
    [String(str || '')], then the five replacements in their order. *)
Definition escapeHtml (v : option jsstring) : jsstring :=
  replace_all 39 (str "&#039;")
    (replace_all 34 (str "&quot;")
       (replace_all 62 (str "&gt;")
          (replace_all 60 (str "&lt;")
             (replace_all 38 (str "&amp;") (default [] v))))).

(** [esc] of analytics.js: three replacements. *)
Definition esc (v : option jsstring) : jsstring :=
  replace_all 62 (str "&gt;")
    (replace_all 60 (str "&lt;")
       (replace_all 38 (str "&amp;") (default [] v))).

(** ** The fallback of analytics.js

    A record of [/api/all] as [loadFromAllEndpoint] reads it: the fields
    of [Paper], and [references], an array or not. *)
Record Doc : Type := {
  doc_paper : Paper;
  doc_references : option (list jsstring)
}.

(** A value of [keywordFreq] or [keywordCitations]: a number, or the string
    that [+] makes once an inherited property was read, which is the text
    of [Object.prototype[name]] followed by the decimal forms of the
    numbers [parts]. *)
Inductive Count : Type :=
  | Number (n : Num)
  | Joined (name : jsstring) (parts : list Num).

#[global] Instance Count_eq_dec : EqDecision Count.
Proof. solve_decision. Defined.

(** Whether a value counts as true; a string [Joined] is never empty. *)
Definition truthy_count (v : Count) : bool :=
  match v with
  | Number n => truthy n
  | Joined _ _ => true
  end.

(** [v + c] for a number [c]: a sum of numbers, and a concatenation when
    [v] is a string or an object, which converts to its text. *)
Definition plus (v : Read Count) (c : Num) : Count :=
  match v with
  | Prim (Number n) => Number (js_add n c)
  | Prim (Joined name parts) => Joined name (parts ++ [c])
  | Proto name => Joined name [c]
  end.

(** [totalReferences], [keywordFreq] and [keywordCitations]. *)
Record Stats : Type := {
  totalReferences : Num;
  keywordFreq : gmap jsstring Count;
  keywordCitations : gmap jsstring Count
}.

Definition no_stats : Stats :=
  {| totalReferences := Fin 0; keywordFreq := ∅; keywordCitations := ∅ |}.

(** [(o[k] || 0) + c] *)
Definition counted (o : gmap jsstring Count) (k : jsstring) (c : Num) : Count :=
  plus (get_or truthy_count o k (Number (Fin 0))) c.

(** The body of [for (const kw of p.keywords)], on the set [seen] and the
    counters; [kw?.trim().toLowerCase()] is undefined for a null keyword. *)
Definition count_keyword (cites : Z) (acc : gset jsstring * Stats)
    (kw : option jsstring) : gset jsstring * Stats :=
  let (seen, stats) := acc in
  match kw with
  | None => acc
  | Some kw =>
      let k := toLowerCase (trim kw) in
      match k with
      | [] => acc
      | _ =>
          if decide (k ∈ seen) then acc
          else
            ({[k]} ∪ seen,
             {| totalReferences := totalReferences stats;
                keywordFreq :=
                  assign k (counted (keywordFreq stats) k (Fin 1))
                    (keywordFreq stats);
                keywordCitations :=
                  assign k (counted (keywordCitations stats) k (Fin cites))
                    (keywordCitations stats) |})
      end
  end.

(** The body of [for (const p of data)]. *)
Definition count_doc (stats : Stats) (d : Doc) : Stats :=
  let cites := default 0 (citations_count (doc_paper d)) in
  let stats :=
    match doc_references d with
    | Some refs =>
        {| totalReferences :=
             js_add (totalReferences stats) (Fin (Z.of_nat (length refs)));
           keywordFreq := keywordFreq stats;
           keywordCitations := keywordCitations stats |}
    | None => stats
    end in
  match keywords (doc_paper d) with
  | Some kws => (fold_left (count_keyword cites) kws (∅, stats)).2
  | None => stats
  end.

Definition count_docs (data : list Doc) : Stats :=
  fold_left count_doc data no_stats.

(** [(a, b) => (b.citations_count || 0) - (a.citations_count || 0)] *)
Definition by_citations_count (a b : Doc) : Z :=
  default 0 (citations_count (doc_paper b))
  - default 0 (citations_count (doc_paper a)).

(** The constant [topCited]: a label and a value for each paper. *)
Definition topCited (data : list Doc) : list (option jsstring * Z) :=
  (fun d => (title (doc_paper d), default 0 (citations_count (doc_paper d))))
  <$> js_sort by_citations_count data.

(** The items for which [renderList(container, items, max)] makes a row. *)
Definition renderList {A} (items : list A) (max : Z) : list A :=
  take (Z.to_nat (Z.min (Z.of_nat (length items)) max)) items.

(** ** The cache of titles of results.js

    What [getIdTitleMap] reads of a record of [/api/all]; an id is a
    string. *)
Record Entry : Type := {
  entry_id : option jsstring;
  entry_title : option jsstring
}.

(** The value that [resp.json()] yields: an array, whose elements may be
    null; a string, whose iteration gives characters, which have no [id];
    or a number, a boolean, null or an object, on which [for ... of]
    throws. *)
Inductive Json : Type :=
  | JsonArray (data : list (option Entry))
  | JsonString (s : jsstring)
  | JsonOther.

(** What [fetch(API_ALL)] comes to: it throws, or gives a response with its
    [ok] flag, whose [json()] throws ([None]) or yields a value. *)
Inductive Reply : Type :=
  | NoReply
  | Replied (ok : bool) (json : option Json).

(** [if (p?.id) map[p.id] = p.title || p.id] *)
Definition add_entry (map : gmap jsstring jsstring) (p : option Entry)
  : gmap jsstring jsstring :=
  match p with
  | Some e =>
      match entry_id e with
      | Some (c :: i) =>
          assign (c :: i)
            match entry_title e with
            | Some (c' :: t) => c' :: t
            | _ => c :: i
            end map
      | _ => map
      end
  | None => map
  end.

(** [getIdTitleMap()] on the cache [ID_TITLE_MAP] and on what a request
    would come to: whether the request was made, the map returned, and the
    cache afterwards. *)
Definition getIdTitleMap (reply : Reply)
    (ID_TITLE_MAP : option (gmap jsstring jsstring))
  : bool * gmap jsstring jsstring * option (gmap jsstring jsstring) :=
  match ID_TITLE_MAP with
  | Some map => (false, map, ID_TITLE_MAP)
  | None =>
      match reply with
      | Replied true (Some (JsonArray data)) =>
          let map := fold_left add_entry data ∅ in (true, map, Some map)
      | Replied true (Some (JsonString _)) => (true, ∅, Some ∅)
      | _ => (true, ∅, None)
      end
  end.

(** [idTitleMap[rid] || rid], the label of the button of a reference. *)
Definition ref_label (map : gmap jsstring jsstring) (rid : jsstring)
  : Read jsstring :=
  get_or nonempty map rid rid.

(** One call of [getIdTitleMap] for each reply of the list: what each call
    returns, and the cache at the end. *)
Fixpoint id_title_calls (replies : list Reply)
    (cache : option (gmap jsstring jsstring))
  : list (bool * gmap jsstring jsstring) * option (gmap jsstring jsstring) :=
  match replies with
  | [] => ([], cache)
  | reply :: replies' =>
      let '(requested, map, cache') := getIdTitleMap reply cache in
      let (results, final) := id_title_calls replies' cache' in
      ((requested, map) :: results, final)
  end.

(** ** The mode of the page

    The page as [setMode] writes it: the attribute [data-mode] of the body,
    the storage, the class [active] of the two buttons and the three texts
    of app.js.  The elements that the source looks up are all there. *)
Record Page : Type := {
  data_mode : string;
  localStorage : gmap string string;
  beginner_active : bool;
  researcher_active : bool;
  hero_subtitle : string;
  query_placeholder : string;
  system_status : string
}.

(** [setMode] of app.js. *)
Definition setMode (mode : string) (page : Page) : Page :=
  let researcher := bool_decide (mode = "researcher"%string) in
  {| data_mode := mode;
     localStorage := <["researcher_mode"%string := mode]> (localStorage page);
     beginner_active := bool_decide (mode = "beginner"%string);
     researcher_active := researcher;
     hero_subtitle :=
       if researcher
       then "Deterministic ranking using citation influence and reference overlap."
       else "Ranked by query relevance and citations — easy to explore.";
     query_placeholder :=
       if researcher
       then "Search by concept, method, or cited work…"
       else "Search by keyword (e.g., machine learning, transformers)…";
     system_status :=
       if researcher
       then "<strong>System status:</strong> Citation graph weighted • Reference overlap active • Deterministic ranking enforced"
       else "<strong>System status:</strong> Dataset indexed • Citation counts enabled • Easy relevance ranking" |}%string.

(** [setMode] of results.js, which writes no text. *)
Definition setMode_results (mode : string) (page : Page) : Page :=
  {| data_mode := mode;
     localStorage := <["researcher_mode"%string := mode]> (localStorage page);
     beginner_active := bool_decide (mode = "beginner"%string);
     researcher_active := bool_decide (mode = "researcher"%string);
     hero_subtitle := hero_subtitle page;
     query_placeholder := query_placeholder page;
     system_status := system_status page |}.

(** [localStorage.getItem('researcher_mode') || 'beginner'] *)
Definition saved_mode (page : Page) : string :=
  match localStorage page !! "researcher_mode"%string with
  | Some (String c m) => String c m
  | _ => "beginner"%string
  end.

(** [initMode] of app.js. *)
Definition initMode (page : Page) : Page := setMode (saved_mode page) page.

(** The end of results.js, up to the call of [setMode]: [q] is what the
    address holds for the parameter [q], if anything; the script returns
    on a blank one before it comes to the mode. *)
Definition init_results (q : option jsstring) (page : Page) : Page :=
  match trim (default [] q) with
  | [] => page
  | _ :: _ => setMode_results (saved_mode page) page
  end.

(** The listener of [keydown] of the first revision: two [if] in a row.
    The first revision has no cursor: its listeners read the field
    [currentSelectionIndex] nowhere. *)
Definition on_keydown_Rev1 (k : Key) (ui : UI) : UI :=
  let ui := match k with Enter => doSearch ui | _ => ui end in
  match k with Escape => clearSuggestions ui | _ => ui end.

(** [div.onpointerdown] of the suggestion with the term [t]; the second
    revision goes on with [doSearch()]. *)
Definition on_pointerdown (r : revision) (t : jsstring) (ui : UI) : UI :=
  let ui := accept t ui in
  match r with
  | Rev1 => ui
  | Rev2 => doSearch ui
  end.

(** The listener of [focus]: the second revision shows the panel again
    when the input holds text. *)
Definition on_focus (Function_toString : jsstring -> jsstring)
    (r : revision) (st : State) (ui : UI) : UI :=
  match r with
  | Rev1 => ui
  | Rev2 =>
      match trim (inputValue ui) with
      | [] => ui
      | q => renderSuggestions Function_toString st q ui
      end
  end.

(** What happens to the page: the user edits the text, the timer of the
    debounced listener of [input] expires, a key goes down, the pointer goes
    down on the item [i] of the panel, the timer set by the listener of
    [blur] expires, the input gets the focus. *)
Inductive Event : Type :=
  | Edit (text : jsstring)
  | InputTimer
  | KeyDown (k : Key)
  | PointerDown (i : nat)
  | BlurTimer
  | Focus.

Definition set_inputValue (text : jsstring) (ui : UI) : UI :=
  {| inputValue := text; shown := shown ui; items := items ui;
     currentSelectionIndex := currentSelectionIndex ui;
     searched := searched ui |}.

(** The listener that runs on an event, with the globals as they are at
    that time. *)
Definition handle (Function_toString : jsstring -> jsstring) (r : revision)
    (ui : UI) (e : State * Event) : UI :=
  let (st, ev) := e in
  match ev with
  | Edit text => set_inputValue text ui
  | InputTimer => on_input Function_toString st ui
  | KeyDown k =>
      match r with
      | Rev1 => on_keydown_Rev1 k ui
      | Rev2 => on_keydown k ui
      end
  | PointerDown i =>
      match items ui !! i with
      | Some t => on_pointerdown r t ui
      | None => ui
      end
  | BlurTimer => clearSuggestions ui
  | Focus => on_focus Function_toString r st ui
  end.

(** ** Vocabulary of the statements *)

(** The strings spelled by the terminal nodes below [n], each without the
    path that leads to [n], in the order of a depth-first walk. *)
Fixpoint words (n : TrieNode) : list jsstring :=
  match n with
  | Node w cs =>
      (if w then [[]] else [])
      ++ (cs ≫= fun kc => cons kc.1 <$> words kc.2)
  end.

(** [w] is spelled by a terminal node below [n]. *)
Definition mem (w : jsstring) (n : TrieNode) : bool :=
  match _getNode w n with
  | Some m => isWord m
  | None => false
  end.

(** The keys of every node are listed in strictly ascending order. *)
Fixpoint wf (n : TrieNode) : Prop :=
  match n with
  | Node _ cs =>
      StronglySorted key_lt (fst <$> cs)
      /\ fold_right (fun kc P => wf kc.2 /\ P) True cs
  end.

(** How many more entries [results] takes before [limit] is reached. *)
Definition room (results : list jsstring) (limit : Z) : nat :=
  Z.to_nat (limit - Z.of_nat (length results)).

(** [p] is a prefix of [T] when case is ignored. *)
Definition ci_prefix (p T : jsstring) : Prop :=
  toLowerCase p `prefix_of` toLowerCase T.

#[global] Instance ci_prefix_dec p T : Decision (ci_prefix p T).
Proof. unfold ci_prefix. apply _. Defined.

(** The entries of a list of suggestions that have the weight [w], in the
    order of the list. *)
Definition of_weight (w : Read Num) (l : list Suggestion) : list Suggestion :=
  filter (fun s => citations s = w) l.

(** The order of the numbers; NaN is in no relation. *)
Definition Num_le (a b : Num) : Prop :=
  match a, b with
  | Fin x, Fin y => x <= y
  | NaN, _ | _, NaN => False
  | Inf p, Inf q => p = true -> q = true
  | Inf p, Fin _ => p = false
  | Fin _, Inf q => q = true
  end.

(** [a] may stand before [b] in a list ordered by weight descending: the
    two weights are numbers, and the one of [b] is not the greater. *)
Definition heavier (a b : Suggestion) : Prop :=
  match citations a, citations b with
  | Prim x, Prim y => Num_le y x
  | _, _ => False
  end.

(** The term that the callback of the keywords indexes for [k], if any. *)
Definition keyword_term (k : option jsstring) : option jsstring :=
  k ≫= fun k => match trim k with [] => None | t => Some t end.

(** The terms that [add_paper] indexes for [p], in order. *)
Definition paper_terms (r : revision) (p : Paper) : list jsstring :=
  omap keyword_term (default [] (keywords p))
  ++ (if indexes_titles r then
        match title p with
        | Some (c :: s) => split_ws (c :: s)
        | _ => []
        end
      else []).

(** The recordings of the loader: each term with the weight recorded for
    it, in order. *)
Definition recordings (r : revision) (papers : list Paper)
  : list (jsstring * Z) :=
  papers ≫= fun p =>
    (fun t => (t, default 0 (citations_count p))) <$> paper_terms r p.

Definition record_all (rs : list (jsstring * Z)) (st : State) : State :=
  fold_left (fun st tc => index_term tc.1 tc.2 st) rs st.

(** The recordings whose term has the normalized form [l]. *)
Definition recorded_as (l : jsstring) (rs : list (jsstring * Z))
  : list (jsstring * Z) :=
  filter (fun tc => toLowerCase tc.1 = l) rs.

(** The greatest of [w] and the elements of [ws]. *)
Definition max_of (w : Z) (ws : list Z) : Z := fold_right Z.max w ws.

(** The request failed or its response has a status that is not a
    success. *)
Definition failed (res : Response) : Prop :=
  match res with
  | Rejected => True
  | Fetched ok _ => ok = false
  end.

(** A number for each key that grows as [key_compare] orders the keys. *)
Definition key_rank (cp : N) : N :=
  match utf16 cp with
  | [u] => u * 0x10000
  | [h; l] => h * 0x10000 + l
  | _ => 0
  end.

(** The cursor is none or the index of an item, and there are items only
    while the panel is displayed. *)
Definition panel_ok (ui : UI) : Prop :=
  (currentSelectionIndex ui = -1
   \/ 0 <= currentSelectionIndex ui < Z.of_nat (length (items ui)))
  /\ (items ui <> [] -> shown ui = true).

(** What stands for one character in an escaped text. *)
Definition escape_char (c : N) : jsstring :=
  if (c =? 38)%N then str "&amp;"
  else if (c =? 60)%N then str "&lt;"
  else if (c =? 62)%N then str "&gt;"
  else if (c =? 34)%N then str "&quot;"
  else if (c =? 39)%N then str "&#039;"
  else [c].

(** The characters that end a text or an attribute value in HTML. *)
Definition markup (c : N) : Prop := c = 60%N \/ c = 62%N \/ c = 34%N \/ c = 39%N.

(** The keys and the weights of the list of [renderSuggestions], in its
    order. *)
Definition ranked (st : State) (prefix : jsstring)
  : list (jsstring * Read Num) :=
  (fun s => (key s, citations s)) <$> suggestion_list st prefix.

(** The keys that [count_doc] counts for a record, with repetitions. *)
Definition doc_key (kw : option jsstring) : option jsstring :=
  kw ≫= fun kw =>
    match toLowerCase (trim kw) with [] => None | k => Some k end.

Definition doc_keys (d : Doc) : list jsstring :=
  omap doc_key (default [] (keywords (doc_paper d))).

(** The records that list the key [k]. *)
Definition listing (k : jsstring) (data : list Doc) : list Doc :=
  filter (fun d => k ∈ doc_keys d) data.

Definition sum_list (l : list Z) : Z := fold_right Z.add 0 l.

(** The request got a value that [getIdTitleMap] reads to its end. *)
Definition readable (reply : Reply) : option (list (option Entry)) :=
  match reply with
  | Replied true (Some (JsonArray data)) => Some data
  | Replied true (Some (JsonString _)) => Some []
  | _ => None
  end.

(** The elements of an array that have the id [rid]. *)
Definition with_id (rid : jsstring) (data : list (option Entry))
  : list (option Entry) :=
  filter (fun p => (p ≫= entry_id) = Some rid) data.

(** ** Properties *)

Section key_order.

Lemma units_compare_refl u : units_compare u u = Eq.
Proof. induction u as [|a u IH]; simpl; [done|]. by rewrite N.compare_refl. Qed.

Lemma units_compare_eq u v : units_compare u v = Eq -> u = v.
Proof.
  revert v; induction u as [|a u IH]; intros [|b v]; simpl; try done.
  destruct (N.compare_spec a b); try done.
  intros; subst; f_equal; auto.
Qed.

Lemma units_compare_antisym u v :
  units_compare v u = CompOpp (units_compare u v).
Proof.
  revert v; induction u as [|a u IH]; intros [|b v]; simpl; try done.
  rewrite (N.compare_antisym a b).
  destruct (a ?= b)%N; simpl; auto.
Qed.

Lemma units_compare_trans u v w :
  units_compare u v = Lt -> units_compare v w = Lt -> units_compare u w = Lt.
Proof.
  revert v w; induction u as [|a u IH]; intros [|b v] [|c w]; simpl; try done.
  destruct (N.compare_spec a b), (N.compare_spec b c); try done; subst.
  - rewrite N.compare_refl; eauto.
  - intros _ _. by rewrite (proj2 (N.compare_lt_iff b c)).
  - intros _ _. by rewrite (proj2 (N.compare_lt_iff a c)).
  - intros _ _. by rewrite (proj2 (N.compare_lt_iff a c)) by lia.
Qed.

Lemma utf16_inj a b : utf16 a = utf16 b -> a = b.
Proof.
  unfold utf16.
  destruct (N.ltb_spec a 0x10000), (N.ltb_spec b 0x10000); intros [=]; try done.
  pose proof (N.div_mod (a - 0x10000) 0x400).
  pose proof (N.div_mod (b - 0x10000) 0x400).
  lia.
Qed.

Lemma key_compare_eq a b : key_compare a b = Eq -> a = b.
Proof. intros H. by apply utf16_inj, units_compare_eq. Qed.

Lemma key_lt_irrefl a : ~ key_lt a a.
Proof. unfold key_lt, key_compare. by rewrite units_compare_refl. Qed.

Lemma key_lt_trans a b c : key_lt a b -> key_lt b c -> key_lt a c.
Proof. apply units_compare_trans. Qed.

Lemma key_ltb_lt a b : key_ltb a b = true <-> key_lt a b.
Proof. unfold key_ltb, key_lt. destruct (key_compare a b); naive_solver. Qed.

Lemma key_lt_total a b : a <> b -> key_ltb a b = false -> key_lt b a.
Proof.
  unfold key_ltb, key_lt, key_compare. intros Hne.
  rewrite (units_compare_antisym (utf16 a) (utf16 b)).
  destruct (units_compare (utf16 a) (utf16 b)) eqn:E; try done.
  by apply units_compare_eq, utf16_inj in E.
Qed.

Lemma key_lt_asym a b : key_lt a b -> key_ltb b a = false.
Proof.
  unfold key_ltb, key_lt, key_compare. intros H.
  by rewrite (units_compare_antisym (utf16 a) (utf16 b)), H.
Qed.

(** Below the surrogates the order of the keys is the order of the code
    points. *)
Lemma key_ltb_bmp a b :
  (a < 0x10000)%N -> (b < 0x10000)%N -> key_ltb a b = (a <? b)%N.
Proof.
  intros Ha Hb. unfold key_ltb, key_compare, utf16.
  destruct (N.ltb_spec a 0x10000), (N.ltb_spec b 0x10000); try lia.
  simpl. unfold N.ltb. by destruct (a ?= b)%N.
Qed.

End key_order.

Section trie.

Lemma TrieNode_ind' (P : TrieNode -> Prop) :
  (forall w cs, Forall (fun kc => P kc.2) cs -> P (Node w cs)) ->
  forall n, P n.
Proof.
  intros H. fix IH 1. intros [w cs]. apply H.
  induction cs as [|[k c] cs IHcs]; constructor; [apply IH | apply IHcs].
Qed.

Lemma wf_Node w cs :
  wf (Node w cs) <->
  StronglySorted key_lt (fst <$> cs) /\ Forall (fun kc => wf kc.2) cs.
Proof.
  simpl. apply and_iff_compat_l.
  induction cs as [|kc cs IH]; simpl.
  - split; [constructor | done].
  - rewrite Forall_cons. by rewrite IH.
Qed.

Lemma wf_new : wf new_TrieNode.
Proof. apply wf_Node. split; constructor. Qed.

Lemma get_child_elem ch cs c : get_child ch cs = Some c -> (ch, c) ∈ cs.
Proof.
  induction cs as [|[k c'] cs IH]; simpl; [done|].
  destruct (N.eqb_spec k ch) as [->|_].
  - intros [= ->]. left.
  - intros. right. auto.
Qed.

Lemma get_child_sorted k c cs :
  StronglySorted key_lt (fst <$> cs) -> (k, c) ∈ cs -> get_child k cs = Some c.
Proof.
  induction cs as [|[k0 c0] cs IH]; simpl.
  - by intros _ ?%elem_of_nil.
  - rewrite StronglySorted_cons, Forall_forall. intros [Hlt Hs].
    intros [[= -> ->]|Hin]%elem_of_cons.
    + by rewrite N.eqb_refl.
    + destruct (N.eqb_spec k0 k) as [->|_]; [|by auto].
      destruct (key_lt_irrefl k). apply Hlt.
      apply list_elem_of_fmap. by exists (k, c).
Qed.

Lemma get_set_child ch ch' c cs :
  get_child ch' (set_child ch c cs)
  = if decide (ch' = ch) then Some c else get_child ch' cs.
Proof.
  induction cs as [|[k c'] cs IH]; simpl.
  - destruct (N.eqb_spec ch ch'), (decide (ch' = ch)); congruence.
  - destruct (N.eqb_spec k ch) as [->|Hk]; simpl.
    + destruct (N.eqb_spec ch ch'), (decide (ch' = ch)); congruence.
    + destruct (key_ltb ch k); simpl.
      * destruct (N.eqb_spec ch ch'), (decide (ch' = ch)); congruence.
      * rewrite IH. destruct (N.eqb_spec k ch'), (decide (ch' = ch)); congruence.
Qed.

Lemma set_child_elem kc ch c cs :
  kc ∈ set_child ch c cs -> kc = (ch, c) \/ kc ∈ cs.
Proof.
  induction cs as [|[k c'] cs IH]; simpl.
  - intros ?%list_elem_of_singleton. by left.
  - destruct (N.eqb_spec k ch) as [->|Hk].
    + rewrite !elem_of_cons. tauto.
    + destruct (key_ltb ch k); rewrite !elem_of_cons; tauto.
Qed.

Lemma set_child_sorted ch c cs :
  StronglySorted key_lt (fst <$> cs) ->
  StronglySorted key_lt (fst <$> set_child ch c cs).
Proof.
  induction cs as [|[k c'] cs IH]; simpl.
  - intros _. repeat constructor.
  - rewrite StronglySorted_cons. intros [Hlt Hs].
    destruct (N.eqb_spec k ch) as [->|Hk]; simpl.
    + by apply StronglySorted_cons.
    + destruct (key_ltb ch k) eqn:E; simpl.
      * apply key_ltb_lt in E.
        apply StronglySorted_cons. split.
        -- constructor; [done|].
           eapply Forall_impl; [exact Hlt|]. intros x Hx. by eapply key_lt_trans.
        -- by apply StronglySorted_cons.
      * apply StronglySorted_cons. split; [|by auto].
        apply Forall_forall. intros x [[k' c''] [-> Hin]]%list_elem_of_fmap.
        apply set_child_elem in Hin as [[= -> ->]|Hin]; simpl.
        -- apply key_lt_total; [congruence|done].
        -- rewrite Forall_forall in Hlt. apply Hlt.
           apply list_elem_of_fmap. by exists (k', c'').
Qed.

Lemma wf_insert_from chars n : wf n -> wf (insert_from chars n).
Proof.
  revert n; induction chars as [|ch rest IH]; intros [w cs]; simpl insert_from.
  - rewrite !wf_Node. done.
  - rewrite !wf_Node. intros [Hs Hall]. split; [by apply set_child_sorted|].
    apply Forall_forall. intros kc [->|Hin]%set_child_elem.
    + simpl. apply IH. destruct (get_child ch cs) as [c|] eqn:E; simpl.
      * apply get_child_elem in E. rewrite Forall_forall in Hall.
        by apply (Hall _ E).
      * apply wf_new.
    + rewrite Forall_forall in Hall. by apply Hall.
Qed.

Lemma getNode_app p s n :
  _getNode (p ++ s) n = _getNode p n ≫= _getNode s.
Proof.
  revert n; induction p as [|ch p IH]; intros n; simpl; [done|].
  destruct (get_child ch (children n)); simpl; auto.
Qed.

Lemma mem_app p s n m : _getNode p n = Some m -> mem (p ++ s) n = mem s m.
Proof. intros H. unfold mem. by rewrite getNode_app, H. Qed.

Lemma mem_new w : mem w new_TrieNode = false.
Proof. by destruct w. Qed.

Lemma mem_insert_from chars n w :
  mem w (insert_from chars n) = bool_decide (w = chars) || mem w n.
Proof.
  revert n w; induction chars as [|ch rest IH]; intros [b cs] [|ch' w'];
    unfold mem; simpl; try done.
  rewrite get_set_child. destruct (decide (ch' = ch)) as [->|Hne].
  - fold (mem w' (insert_from rest (default new_TrieNode (get_child ch cs)))).
    rewrite IH. f_equal.
    + apply bool_decide_ext. naive_solver.
    + destruct (get_child ch cs); [done|apply mem_new].
  - rewrite bool_decide_eq_false_2 by congruence. done.
Qed.

Lemma elem_of_words_nil w cs : [] ∈ words (Node w cs) <-> w = true.
Proof.
  simpl. rewrite elem_of_app, list_elem_of_bind. split.
  - intros [H|(kc & H & _)].
    + destruct w; [done|by apply elem_of_nil in H].
    + by apply list_elem_of_fmap in H as (? & ? & _).
  - intros ->. left. left.
Qed.

Lemma elem_of_words_cons k u w cs :
  k :: u ∈ words (Node w cs) <-> exists c, (k, c) ∈ cs /\ u ∈ words c.
Proof.
  simpl. rewrite elem_of_app, list_elem_of_bind. split.
  - intros [H|([k' c] & H & Hin)].
    + destruct w; [|by apply elem_of_nil in H].
      by apply list_elem_of_singleton in H.
    + apply list_elem_of_fmap in H as (u' & [= -> ->] & Hu). by exists c.
  - intros (c & Hin & Hu). right. exists (k, c). split; [|done].
    apply list_elem_of_fmap. by exists u.
Qed.

Lemma words_mem n : wf n -> forall w, w ∈ words n <-> mem w n = true.
Proof.
  induction n as [b cs IH] using TrieNode_ind'.
  rewrite wf_Node. intros [Hs Hwf] [|k u].
  - by rewrite elem_of_words_nil.
  - rewrite elem_of_words_cons. unfold mem; simpl.
    rewrite Forall_forall in IH, Hwf. split.
    + intros (c & Hin & Hu). rewrite (get_child_sorted _ _ _ Hs Hin).
      by apply (IH _ Hin (Hwf _ Hin)).
    + destruct (get_child k cs) as [c|] eqn:E; [|done].
      apply get_child_elem in E. intros H. exists c. split; [done|].
      by apply (IH _ E (Hwf _ E)).
Qed.

Lemma lex_lt_nil ltb a u : lex_lt ltb [] (a :: u).
Proof. done. Qed.

Lemma lex_lt_head a b u v : key_lt a b -> lex_lt key_ltb (a :: u) (b :: v).
Proof.
  intros H%key_ltb_lt. unfold lex_lt. simpl. by rewrite H.
Qed.

Lemma lex_lt_tail k u v :
  lex_lt key_ltb u v -> lex_lt key_ltb (k :: u) (k :: v).
Proof.
  unfold lex_lt. simpl. intros ->. rewrite N.eqb_refl. apply orb_true_r.
Qed.

Lemma words_children_sorted cs :
  StronglySorted key_lt (fst <$> cs) ->
  Forall (fun kc => StronglySorted (lex_lt key_ltb) (words kc.2)) cs ->
  StronglySorted (lex_lt key_ltb) (cs ≫= fun kc => cons kc.1 <$> words kc.2).
Proof.
  induction cs as [|[k c] cs IH]; [constructor|].
  rewrite fmap_cons, StronglySorted_cons, Forall_cons, bind_cons.
  intros [Hlt Hs] [Hc Hcs]. apply StronglySorted_app_2; [| |by auto].
  - intros x1 x2 (u & -> & _)%list_elem_of_fmap
      ([k' c'] & (v & -> & _)%list_elem_of_fmap & Hin)%list_elem_of_bind.
    apply lex_lt_head. rewrite Forall_forall in Hlt. apply Hlt.
    apply list_elem_of_fmap. by exists (k', c').
  - eapply StronglySorted_fmap; [|exact Hc]. intros u v. apply lex_lt_tail.
Qed.

(** The words below a node come in strictly ascending order. *)
Lemma words_sorted n : wf n -> StronglySorted (lex_lt key_ltb) (words n).
Proof.
  induction n as [b cs IH] using TrieNode_ind'.
  rewrite wf_Node. intros [Hs Hwf]. simpl. apply StronglySorted_app_2.
  - intros x1 x2 Hx1
      ([k c] & (v & -> & _)%list_elem_of_fmap & _)%list_elem_of_bind.
    destruct b; [|by apply elem_of_nil in Hx1].
    apply list_elem_of_singleton in Hx1 as ->. apply lex_lt_nil.
  - destruct b; repeat constructor.
  - apply words_children_sorted; [done|].
    rewrite Forall_forall in IH, Hwf |- *. auto.
Qed.

Lemma lex_lt_irrefl u : ~ lex_lt key_ltb u u.
Proof.
  unfold lex_lt. induction u as [|a u IH]; simpl; [done|].
  rewrite N.eqb_refl. intros [H%key_ltb_lt|H]%orb_true_iff.
  - by apply key_lt_irrefl in H.
  - auto.
Qed.

Lemma sorted_NoDup (l : list jsstring) :
  StronglySorted (lex_lt key_ltb) l -> NoDup l.
Proof.
  induction l as [|u l IH]; [constructor|].
  rewrite StronglySorted_cons, Forall_forall. intros [Hlt Hs].
  constructor; [|by auto]. intros Hin. by apply (lex_lt_irrefl u), Hlt.
Qed.

Lemma room_full results limit :
  full results limit = true <-> room results limit = 0%nat.
Proof. unfold full, room. rewrite Z.geb_le. lia. Qed.

Lemma room_app results more limit :
  room (results ++ more) limit = (room results limit - length more)%nat.
Proof. unfold room. rewrite length_app. lia. Qed.

(** [_collect] appends the words below [node], each after [prefix], as long
    as there is room. *)
Lemma collect_spec node : forall prefix results limit,
  _collect node prefix results limit
  = results ++ take (room results limit) (app prefix <$> words node).
Proof.
  induction node as [b cs IH] using TrieNode_ind'. intros prefix results limit.
  simpl _collect. destruct (full results limit) eqn:Hfull.
  { apply room_full in Hfull. rewrite Hfull. simpl. by rewrite app_nil_r. }
  assert (room results limit <> 0%nat) as Hroom.
  { intros H%room_full. congruence. }
  clear Hfull. simpl words. rewrite fmap_app.
  set (rest := app prefix <$> (cs ≫= _)).
  assert (forall results,
    (fix loop (cs : list (N * TrieNode)) (results : list jsstring)
       : list jsstring :=
       match cs with
       | [] => results
       | (k, c) :: cs' =>
           if full results limit then results
           else loop cs' (_collect c (prefix ++ [k]) results limit)
       end) cs results
    = results ++ take (room results limit) rest) as Hloop.
  { subst rest. clear Hroom results.
    induction cs as [|[k c] cs IHcs]; intros results.
    - simpl. by rewrite take_nil, app_nil_r.
    - apply Forall_cons in IH as [IHc IH]. rewrite bind_cons. simpl in IHc.
      destruct (full results limit) eqn:Hfull.
      { apply room_full in Hfull. rewrite Hfull. simpl. by rewrite app_nil_r. }
      rewrite (IHcs IH), IHc.
      rewrite fmap_app, take_app, room_app, <- app_assoc.
      rewrite <- list_fmap_compose, !length_take, !length_fmap. simpl.
      f_equal. f_equal.
      + f_equal. apply list_fmap_ext. intros _ u _. simpl.
        by rewrite <- app_assoc.
      + f_equal. lia. }
  rewrite Hloop. destruct b; simpl.
  - rewrite room_app, app_nil_r, <- app_assoc. simpl.
    destruct (room results limit) as [|r]; [done|]. simpl.
    by rewrite Nat.sub_0_r.
  - done.
Qed.

Lemma suggestions_spec root prefix limit :
  suggestions root prefix limit
  = match _getNode (toLowerCase prefix) root with
    | None => []
    | Some node =>
        app (toLowerCase prefix) <$> take (Z.to_nat limit) (words node)
    end.
Proof.
  unfold suggestions. destruct (_getNode _ root) as [node|]; [|done].
  rewrite collect_spec. simpl. unfold room. simpl.
  by rewrite Z.sub_0_r, fmap_take.
Qed.

Lemma wf_insert w t : wf t -> wf (insert w t).
Proof. destruct w; simpl; [done|]. apply wf_insert_from. Qed.

Lemma mem_insert w t u :
  mem u (insert w t)
  = bool_decide (w <> [] /\ u = toLowerCase w) || mem u t.
Proof.
  destruct w as [|c w]; simpl; [done|].
  rewrite mem_insert_from. f_equal. apply bool_decide_ext.
  split; [by split|by intros [_ ?]].
Qed.

Lemma wf_fold_insert terms t :
  wf t -> wf (fold_left (fun t w => insert w t) terms t).
Proof.
  revert t; induction terms as [|w terms IH]; intros t Ht; simpl; [done|].
  by apply IH, wf_insert.
Qed.

Lemma mem_fold_insert terms t u :
  mem u (fold_left (fun t w => insert w t) terms t) = true <->
  mem u t = true \/ exists T, T ∈ terms /\ T <> [] /\ u = toLowerCase T.
Proof.
  revert t; induction terms as [|w terms IH]; intros t; simpl.
  - split; [by left|]. intros [?|(T & []%elem_of_nil & _)]; done.
  - rewrite IH, mem_insert, orb_true_iff, bool_decide_eq_true. split.
    + intros [[[? ?]|?]|(T & ? & ?)]; [right; exists w|by left|right; exists T];
        rewrite elem_of_cons; tauto.
    + intros [?|(T & [->|?]%elem_of_cons & ?)]; [tauto|tauto|].
      right. by exists T.
Qed.

Lemma wf_trie_of terms : wf (trie_of terms).
Proof. apply wf_fold_insert, wf_new. Qed.

(** The terminal nodes of [trie_of terms] spell the lower-cased forms of
    the terms that are not empty. *)
Lemma mem_trie_of terms u :
  mem u (trie_of terms) = true <->
  exists T, T ∈ terms /\ T <> [] /\ u = toLowerCase T.
Proof.
  unfold trie_of. rewrite mem_fold_insert, mem_new.
  split; [by intros [?|?]|by right].
Qed.

Lemma wf_getNode p n m : wf n -> _getNode p n = Some m -> wf m.
Proof.
  revert n; induction p as [|ch p IH]; intros [b cs] Hwf; simpl.
  - by intros [= <-].
  - destruct (get_child ch cs) as [c|] eqn:E; [|done].
    apply wf_Node in Hwf as [_ Hall]. rewrite Forall_forall in Hall.
    apply IH. by apply (Hall _ (get_child_elem _ _ _ E)).
Qed.

Lemma words_below terms p node s :
  _getNode (toLowerCase p) (trie_of terms) = Some node ->
  s ∈ words node <->
  exists T, T ∈ terms /\ T <> [] /\ toLowerCase T = toLowerCase p ++ s.
Proof.
  intros Hnode.
  rewrite (words_mem node (wf_getNode _ _ _ (wf_trie_of terms) Hnode)).
  rewrite <- (mem_app _ _ _ _ Hnode), mem_trie_of.
  split; intros (T & ? & ? & ?); by exists T.
Qed.

(** Every suggestion is the lower-cased form of an inserted term that
    starts with the prefix. *)
Lemma suggestions_sound terms p limit u :
  u ∈ suggestions (trie_of terms) p limit ->
  exists T, T ∈ terms /\ T <> [] /\ ci_prefix p T /\ u = toLowerCase T.
Proof.
  rewrite suggestions_spec.
  destruct (_getNode _ (trie_of terms)) as [node|] eqn:Hnode;
    [|by intros ?%elem_of_nil].
  intros (s & -> & Hs%elem_of_take)%list_elem_of_fmap.
  destruct Hs as (i & Hs%list_elem_of_lookup_2 & _).
  apply (words_below _ _ _ _ Hnode) in Hs as (T & ? & ? & HT).
  exists T. repeat split; try done. by exists s.
Qed.

Lemma words_below_count terms p node :
  _getNode (toLowerCase p) (trie_of terms) = Some node ->
  (length (words node) <= length (filter (ci_prefix p) terms))%nat.
Proof.
  intros Hnode.
  rewrite <- (length_fmap (app (toLowerCase p)) (words node)).
  rewrite <- (length_fmap toLowerCase (filter _ terms)).
  apply submseteq_length, NoDup_submseteq.
  - apply NoDup_fmap_2; [apply _|].
    apply sorted_NoDup, words_sorted.
    exact (wf_getNode _ _ _ (wf_trie_of terms) Hnode).
  - intros x (s & -> & Hs)%list_elem_of_fmap.
    apply (words_below _ _ _ _ Hnode) in Hs as (T & ? & ? & HT).
    apply list_elem_of_fmap. exists T. split; [done|].
    apply list_elem_of_filter. split; [by exists s|done].
Qed.

End trie.

Section trie_claims.

(** C3: when [T] was inserted and [p] is a prefix of [T], case ignored, the
    suggestions for [p] contain the lower-cased [T], as soon as [limit] is
    at least the number of inserted terms that start with [p].  ([T] is not
    empty: [insert] returns at once on an empty term.) *)
Theorem prefixMatches_complete terms T p limit :
  T ∈ terms -> T <> [] -> ci_prefix p T ->
  Z.of_nat (length (filter (ci_prefix p) terms)) <= limit ->
  toLowerCase T ∈ suggestions (trie_of terms) p limit.
Proof.
  intros HT Hne [s Hs] Hlimit. rewrite suggestions_spec.
  assert (mem (toLowerCase T) (trie_of terms) = true) as Hmem.
  { apply mem_trie_of. by exists T. }
  unfold mem in Hmem. rewrite Hs, getNode_app in Hmem.
  destruct (_getNode (toLowerCase p) (trie_of terms)) as [node|] eqn:Hnode;
    [|done].
  pose proof (words_below_count _ _ _ Hnode).
  rewrite take_ge by lia. rewrite Hs. apply list_elem_of_fmap_2.
  apply (words_below _ _ _ _ Hnode). by exists T.
Qed.

Lemma lex_ltb_bmp u v :
  Forall (fun c => c < 0x10000)%N u -> Forall (fun c => c < 0x10000)%N v ->
  lex_ltb key_ltb u v = lex_ltb N.ltb u v.
Proof.
  intros Hu; revert v; induction Hu as [|a u Ha Hu IH]; intros v Hv;
    destruct Hv as [|b v Hb Hv]; simpl; try done.
  by rewrite key_ltb_bmp, IH.
Qed.

Lemma sorted_le_of_lt ltb (l : list jsstring) :
  StronglySorted (lex_lt ltb) l -> StronglySorted (lex_le ltb) l.
Proof.
  induction 1 as [|u l Hs IH Hall]; constructor; [done|].
  eapply Forall_impl; [exact Hall|]. intros v Hv. by right.
Qed.

Lemma sorted_bmp (l : list jsstring) :
  Forall (Forall (fun c => c < 0x10000)%N) l ->
  StronglySorted (lex_lt key_ltb) l -> StronglySorted (lex_lt N.ltb) l.
Proof.
  intros Hbmp Hs; induction Hs as [|u l Hs IH Hall]; [constructor|].
  apply Forall_cons in Hbmp as [Hu Hl]. constructor; [by auto|].
  rewrite Forall_forall in Hall, Hl |- *. intros v Hv.
  unfold lex_lt. rewrite <- lex_ltb_bmp by auto. by apply Hall.
Qed.

(** C4, as the code has it: the suggestions for [p] are at most [limit];
    the suffixes after [p] come in ascending lexicographic order, two
    characters being compared by their UTF-16 code units, which is the
    order of the code points when no character lies beyond U+FFFF; a
    [limit] of zero or less, or a prefix that no inserted term starts with,
    gives the empty array. *)
Theorem prefixMatches_bounded_ordered terms p limit :
  let out := suggestions (trie_of terms) p limit in
  Z.of_nat (length out) <= Z.max 0 limit
  /\ (exists suffixes,
        out = app (toLowerCase p) <$> suffixes
        /\ StronglySorted (lex_le key_ltb) suffixes
        /\ (Forall (Forall (fun c => c < 0x10000)%N) suffixes ->
            StronglySorted (lex_le N.ltb) suffixes))
  /\ (limit <= 0 -> out = [])
  /\ ((forall T, T ∈ terms -> T <> [] -> ~ ci_prefix p T) -> out = []).
Proof.
  intros out. repeat split.
  - subst out. rewrite suggestions_spec.
    destruct (_getNode _ _); simpl; [|lia].
    rewrite length_fmap, length_take. lia.
  - subst out. rewrite suggestions_spec.
    destruct (_getNode _ (trie_of terms)) as [node|] eqn:Hnode.
    + assert (StronglySorted (lex_lt key_ltb)
                (take (Z.to_nat limit) (words node))) as Hs.
      { eapply StronglySorted_app_1_l. rewrite take_drop.
        apply words_sorted.
        exact (wf_getNode _ _ _ (wf_trie_of terms) Hnode). }
      exists (take (Z.to_nat limit) (words node)).
      split; [done|]. split; [by apply sorted_le_of_lt|].
      intros Hbmp. by apply sorted_le_of_lt, sorted_bmp.
    + exists []. repeat split; constructor.
  - intros Hlimit. subst out. rewrite suggestions_spec.
    destruct (_getNode _ _); [|done].
    replace (Z.to_nat limit) with 0%nat by lia. done.
  - intros Hnone. destruct out as [|u out'] eqn:E; [done|].
    destruct (suggestions_sound terms p limit u) as (T & ? & ? & ? & _).
    + fold out. rewrite E. left.
    + by destruct (Hnone T).
Qed.

(** C8, as the code has it: [insert] leaves the trie as it is for the empty
    term, and only for it: every other term, also one made of white space,
    ends on a terminal node afterwards. *)
Theorem insert_empty_noop root :
  insert [] root = root
  /\ (forall word, word <> [] ->
       mem (toLowerCase word) (insert word root) = true).
Proof.
  split; [done|]. intros word Hne. rewrite mem_insert.
  rewrite bool_decide_eq_true_2; done.
Qed.

End trie_claims.

Section ranking.

Lemma sort_insert_perm {A} (cmp : A -> A -> Z) x l :
  sort_insert cmp x l ≡ₚ x :: l.
Proof.
  induction l as [|y l IH]; simpl; [done|].
  destruct (cmp x y <=? 0); [done|]. rewrite IH. apply Permutation_swap.
Qed.

Lemma js_sort_perm {A} (cmp : A -> A -> Z) l : js_sort cmp l ≡ₚ l.
Proof.
  induction l as [|x l IH]; simpl; [done|].
  by rewrite sort_insert_perm, IH.
Qed.

(** The sort orders a list by [R] when the comparison function is
    consistent with [R] on the elements of the list, those that have
    [P]. *)
Lemma sort_insert_sorted {A} (cmp : A -> A -> Z) (R : relation A)
    (P : A -> Prop) x l :
  (forall a b, P a -> P b -> cmp a b <= 0 -> R a b) ->
  (forall a b, P a -> P b -> 0 < cmp a b -> R b a) ->
  (forall a b c, P a -> P b -> P c -> R a b -> R b c -> R a c) ->
  P x -> Forall P l -> StronglySorted R l ->
  StronglySorted R (sort_insert cmp x l).
Proof.
  intros Hle Hgt Htrans Hx Hl Hs. revert Hl.
  induction Hs as [|y l Hs IH Hall]; intros Hl; simpl; [repeat constructor|].
  apply Forall_cons in Hl as [Hy Hl].
  destruct (Z.leb_spec (cmp x y) 0).
  - constructor; [by constructor|]. constructor; [by apply Hle|].
    apply Forall_forall. intros z Hz.
    apply (Htrans x y z); try done.
    + by apply (proj1 (Forall_forall _ _) Hl).
    + by apply Hle.
    + by apply (proj1 (Forall_forall _ _) Hall).
  - constructor; [by apply IH|]. rewrite sort_insert_perm.
    constructor; [by apply Hgt|done].
Qed.

Lemma js_sort_sorted {A} (cmp : A -> A -> Z) (R : relation A)
    (P : A -> Prop) l :
  (forall a b, P a -> P b -> cmp a b <= 0 -> R a b) ->
  (forall a b, P a -> P b -> 0 < cmp a b -> R b a) ->
  (forall a b c, P a -> P b -> P c -> R a b -> R b c -> R a c) ->
  Forall P l -> StronglySorted R (js_sort cmp l).
Proof.
  intros Hle Hgt Htrans. induction 1 as [|x l Hx Hl IH]; simpl; [constructor|].
  apply (sort_insert_sorted cmp R P); try done. by rewrite js_sort_perm.
Qed.

Lemma difference_le a b :
  a <> NaN -> b <> NaN -> difference a b <= 0 -> Num_le a b.
Proof. destruct a as [x|[]|], b as [y|[]|]; simpl; try done; lia. Qed.

Lemma difference_gt a b : 0 < difference a b -> Num_le b a.
Proof. destruct a as [x|[]|], b as [y|[]|]; simpl; try done; lia. Qed.

Lemma difference_diag a : difference a a = 0.
Proof. destruct a as [x|[]|]; simpl; try done; lia. Qed.

Lemma Num_le_trans a b c : Num_le a b -> Num_le b c -> Num_le a c.
Proof.
  destruct a as [x|[]|], b as [y|[]|], c as [z|[]|]; simpl; try done;
    try lia; auto.
Qed.

(** [o[k] || d] is never NaN. *)
Lemma citations_of_number st k n : citations_of st k = Prim n -> n <> NaN.
Proof.
  unfold citations_of, get_or. destruct (citationsMap st !! k) as [v|].
  - intros [= <-]. by destruct v as [[| |]|[]|].
  - destruct (inherited k); [done|]. by intros [= <-].
Qed.

Lemma of_weight_sort_insert w x l :
  of_weight w (sort_insert by_citations x l) = of_weight w (x :: l).
Proof.
  unfold of_weight. induction l as [|y l IH]; simpl; [done|].
  destruct (Z.leb_spec (by_citations x y) 0) as [|Hgt]; [done|].
  rewrite filter_cons, IH, !filter_cons.
  destruct (decide (citations y = w)) as [Ey|], (decide (citations x = w))
    as [Ex|]; try done.
  unfold by_citations in Hgt. rewrite Ey, Ex, difference_diag in Hgt. lia.
Qed.

(** The sort is stable: the entries of one weight keep their order. *)
Lemma of_weight_js_sort w l : of_weight w (js_sort by_citations l) = of_weight w l.
Proof.
  induction l as [|x l IH]; simpl; [done|].
  rewrite of_weight_sort_insert. unfold of_weight in *.
  by rewrite !filter_cons, IH.
Qed.

(** What the code does of C1.  The list that [renderSuggestions] shows for
    a prefix holds the prefix matches of the trie, resolved; the entries
    of equal weight stand in the order in which the trie listed them; it
    has at most 8 entries, the limit passed to the trie; and it is ordered
    by weight descending when the weight of every match is a number,
    which it is unless the key is a property of [Object.prototype] that
    [citationsMap] does not have as its own. *)
Lemma suggestion_list_ranked st prefix :
  let matches := resolve st <$> suggestions (trie st) prefix 8 in
  let list := suggestion_list st prefix in
  list ≡ₚ matches
  /\ (forall w, of_weight w list = of_weight w matches)
  /\ (length list <= 8)%nat
  /\ (Forall (fun s => exists n, citations s = Prim n) matches ->
      StronglySorted heavier list).
Proof.
  intros matches list. subst list. unfold suggestion_list. fold matches.
  split; [apply js_sort_perm|].
  split; [intros w; apply of_weight_js_sort|]. split.
  - rewrite js_sort_perm. subst matches.
    rewrite length_fmap, suggestions_spec.
    destruct (_getNode _ _); simpl; [|lia].
    rewrite length_fmap, length_take. lia.
  - intros Hnum.
    apply (js_sort_sorted _ _
             (fun s => exists n, citations s = Prim n /\ n <> NaN)).
    + intros a b (x & Ea & Hx) (y & Eb & Hy). unfold by_citations, heavier.
      rewrite Ea, Eb. simpl. by apply difference_le.
    + intros a b (x & Ea & Hx) (y & Eb & Hy). unfold by_citations, heavier.
      rewrite Ea, Eb. simpl. apply difference_gt.
    + intros a b c (x & Ea & _) (y & Eb & _) (z & Ec & _). unfold heavier.
      rewrite Ea, Eb, Ec. intros H1 H2. by apply (Num_le_trans z y x).
    + subst matches. rewrite Forall_fmap in Hnum |- *.
      eapply Forall_impl; [exact Hnum|]. intros k [n Hn]. simpl in *.
      exists n. split; [done|]. by apply (citations_of_number st k).
Qed.

(** A list of two entries or more is not ordered by weight, whatever the
    order of its entries is, when the weight of one of them is an
    object. *)
Lemma object_weight_unsorted l s name :
  s ∈ l -> citations s = Proto name -> (2 <= length l)%nat ->
  ~ StronglySorted heavier l.
Proof.
  intros Hs Hobj Hlen Hsorted.
  destruct Hsorted as [|x l Hsorted Hall]; [by apply elem_of_nil in Hs|].
  apply elem_of_cons in Hs as [<-|Hs].
  - destruct l as [|y l]; [simpl in Hlen; lia|].
    apply Forall_cons in Hall as [Hy _]. unfold heavier in Hy.
    by rewrite Hobj in Hy.
  - apply (proj1 (Forall_forall _ _) Hall) in Hs. unfold heavier in Hs.
    rewrite Hobj in Hs. by destruct (citations x).
Qed.

End ranking.

Section loader.

Lemma record_all_app rs1 rs2 st :
  record_all (rs1 ++ rs2) st = record_all rs2 (record_all rs1 st).
Proof. apply fold_left_app. Qed.

Lemma fold_keywords cite ks st :
  fold_left (add_keyword cite) ks st
  = record_all ((fun t => (t, cite)) <$> omap keyword_term ks) st.
Proof.
  revert st; induction ks as [|k ks IH]; intros st; simpl; [done|].
  rewrite IH. destruct k as [k|]; simpl; [|done].
  by destruct (trim k).
Qed.

Lemma fold_tokens cite toks st :
  fold_left (fun st tok => index_term tok cite st) toks st
  = record_all ((fun t => (t, cite)) <$> toks) st.
Proof.
  revert st; induction toks as [|t toks IH]; intros st; simpl; [done|].
  by rewrite IH.
Qed.

Lemma add_paper_recordings r st p :
  add_paper r st p
  = record_all
      ((fun t => (t, default 0 (citations_count p))) <$> paper_terms r p) st.
Proof.
  unfold add_paper, paper_terms.
  rewrite fmap_app, record_all_app, fold_keywords.
  destruct (indexes_titles r); [|done].
  destruct (title p) as [[|c s]|]; try done. apply fold_tokens.
Qed.

(** The loader performs its recordings one after the other. *)
Lemma index_papers_recordings r papers st :
  index_papers r papers st = record_all (recordings r papers) st.
Proof.
  unfold index_papers, recordings.
  revert st; induction papers as [|p papers IH]; intros st; simpl; [done|].
  by rewrite record_all_app, IH, add_paper_recordings.
Qed.

Lemma record_all_snoc rs t c st :
  record_all (rs ++ [(t, c)]) st = index_term t c (record_all rs st).
Proof. by rewrite record_all_app. Qed.

Lemma trie_record_all rs st :
  trie (record_all rs st) = fold_left (fun t w => insert w t) rs.*1 (trie st).
Proof.
  revert st; induction rs as [|[t c] rs IH]; intros st; simpl; [done|].
  by rewrite IH.
Qed.

Lemma recorded_as_snoc l rs t c :
  recorded_as l (rs ++ [(t, c)])
  = recorded_as l rs ++ (if decide (toLowerCase t = l) then [(t, c)] else []).
Proof.
  unfold recorded_as. rewrite filter_app, filter_cons, filter_nil. simpl.
  by destruct (decide (toLowerCase t = l)).
Qed.

Lemma inherited_proto : inherited proto = true.
Proof. reflexivity. Qed.

Lemma lookup_assign_eq {V} (o : gmap jsstring V) k v :
  k <> proto -> assign k v o !! k = Some v.
Proof. intros Hk. unfold assign. rewrite decide_False by done. apply lookup_insert_eq. Qed.

Lemma lookup_assign_ne {V} (o : gmap jsstring V) k v l :
  k <> l -> assign k v o !! l = o !! l.
Proof.
  intros Hk. unfold assign. destruct (decide (k = proto)); [done|].
  by apply lookup_insert_ne.
Qed.

Lemma lookup_assign_proto {V} (o : gmap jsstring V) k v :
  assign k v o !! proto = o !! proto.
Proof.
  unfold assign. destruct (decide (k = proto)) as [->|Hk]; [done|].
  by apply lookup_insert_ne.
Qed.

Lemma displayMap_record_all rs st l :
  l <> proto ->
  displayMap (record_all rs st) !! l
  = match last (recorded_as l rs) with
    | Some tc => Some tc.1
    | None => displayMap st !! l
    end.
Proof.
  intros Hl. induction rs as [|[t c] rs IH] using rev_ind; [done|].
  rewrite record_all_snoc, recorded_as_snoc. simpl.
  destruct (decide (toLowerCase t = l)) as [<-|Hne].
  - by rewrite lookup_assign_eq, last_snoc.
  - by rewrite lookup_assign_ne, app_nil_r.
Qed.

(** Nothing is ever stored under [__proto__]. *)
Lemma record_all_proto rs st :
  displayMap (record_all rs st) !! proto = displayMap st !! proto
  /\ citationsMap (record_all rs st) !! proto = citationsMap st !! proto.
Proof.
  induction rs as [|[t c] rs [IH1 IH2]] using rev_ind; [done|].
  rewrite record_all_snoc. simpl. by rewrite !lookup_assign_proto.
Qed.

Lemma max_of_snoc a ws c : max_of a (ws ++ [c]) = Z.max (max_of a ws) c.
Proof. unfold max_of. induction ws as [|w ws IH]; simpl; lia. Qed.

Lemma or_zero_Fin m : (if truthy (Fin m) then Fin m else Fin 0) = Fin m.
Proof. by destruct m. Qed.

(** The own weight of a key after the recordings from the empty index: the
    greatest of 0 and the weights recorded for it; for a key that
    [Object.prototype] has, the first recording reads the inherited
    function, which stores NaN, and NaN counts as 0 thereafter. *)
Lemma citationsMap_record_all rs l :
  l <> proto ->
  citationsMap (record_all rs init) !! l
  = match (recorded_as l rs).*2 with
    | [] => None
    | w :: ws =>
        Some (if inherited l
              then match ws with [] => NaN | _ :: _ => Fin (max_of 0 ws) end
              else Fin (max_of 0 (w :: ws)))
    end.
Proof.
  intros Hl. induction rs as [|[t c] rs IH] using rev_ind; [done|].
  rewrite record_all_snoc, recorded_as_snoc. simpl.
  destruct (decide (toLowerCase t = l)) as [E|Hne].
  2: { by rewrite lookup_assign_ne, app_nil_r. }
  rewrite E, lookup_assign_eq by done. unfold get_or. rewrite IH.
  rewrite fmap_app. cbn [fmap list_fmap snd].
  destruct ((recorded_as l rs).*2) as [|w ws]; cbn [app].
  - destruct (inherited l); [done|]. cbn [ToNumber Math_max].
    do 2 f_equal. unfold max_of. simpl. lia.
  - destruct (inherited l).
    + destruct ws as [|w' ws]; cbn [app].
      * cbn [truthy ToNumber Math_max]. do 2 f_equal. unfold max_of. simpl. lia.
      * rewrite or_zero_Fin. cbn [ToNumber Math_max]. do 2 f_equal.
        by rewrite <- (max_of_snoc 0 (w' :: ws) c).
    + rewrite or_zero_Fin. cbn [ToNumber Math_max]. do 2 f_equal.
      rewrite max_of_snoc. unfold max_of. simpl. lia.
Qed.

Lemma fold_left_max ws a : fold_left Z.max ws a = max_of a ws.
Proof.
  unfold max_of. revert a; induction ws as [|w ws IH]; intros a; simpl; [done|].
  rewrite IH. clear IH. induction ws as [|w' ws IH]; simpl; lia.
Qed.

Lemma max_of_perm a ws ws' : ws ≡ₚ ws' -> max_of a ws = max_of a ws'.
Proof. unfold max_of. induction 1; simpl; lia. Qed.

Lemma max_of_app a ws ws' : max_of a ws <= max_of a (ws ++ ws').
Proof.
  unfold max_of. induction ws as [|w ws IH]; simpl; [|lia].
  induction ws' as [|w' ws' IH]; simpl; lia.
Qed.

Lemma max_of_nonneg w ws : 0 <= w -> max_of 0 (w :: ws) = max_of w ws.
Proof.
  intros Hw. unfold max_of. simpl. induction ws as [|w' ws IH]; simpl; lia.
Qed.

Lemma recordings_app r papers papers' :
  recordings r (papers ++ papers') = recordings r papers ++ recordings r papers'.
Proof. apply bind_app. Qed.

Lemma recordings_perm r papers papers' :
  papers ≡ₚ papers' -> recordings r papers ≡ₚ recordings r papers'.
Proof. unfold recordings. by intros ->. Qed.

(** The weight of a key that [Object.prototype] does not have. *)
Lemma citations_index_papers r papers l :
  inherited l = false ->
  citations_of (index_papers r papers init) l
  = Prim (Fin (max_of 0 (recorded_as l (recordings r papers)).*2)).
Proof.
  intros Hl. assert (l <> proto) as Hp by (intros ->; done).
  unfold citations_of, get_or.
  rewrite index_papers_recordings, citationsMap_record_all by done. rewrite Hl.
  destruct ((recorded_as l (recordings r papers)).*2); [done|].
  by rewrite or_zero_Fin.
Qed.

(** The weight of a key that names a function of [Object.prototype]: the
    first recording is lost. *)
Lemma citations_index_papers_inherited r papers l :
  inherited l = true -> l <> proto ->
  citations_of (index_papers r papers init) l
  = match (recorded_as l (recordings r papers)).*2 with
    | [] => Proto l
    | _ :: ws => Prim (Fin (max_of 0 ws))
    end.
Proof.
  intros Hl Hp. unfold citations_of, get_or.
  rewrite index_papers_recordings, citationsMap_record_all by done. rewrite Hl.
  destruct ((recorded_as l (recordings r papers)).*2) as [|w [|w' ws]]; try done.
  by rewrite or_zero_Fin.
Qed.


Lemma Num_le_refl a : a <> NaN -> Num_le a a.
Proof. destruct a as [x|[]|]; simpl; try done. Qed.

Lemma citations_index_term t c st l x :
  citations_of st l = Prim x ->
  exists y, citations_of (index_term t c st) l = Prim y /\ Num_le x y.
Proof.
  intros Hx. pose proof (citations_of_number st l x Hx) as Hnan.
  unfold citations_of, index_term in *. simpl.
  destruct (decide (toLowerCase t = l /\ l <> proto)) as [[-> Hp]|Hne].
  - rewrite Hx. simpl. unfold get_or at 1. rewrite lookup_assign_eq by done.
    eexists. split; [done|].
    destruct x as [x|[]|]; simpl; try done.
    + destruct (Z.max x c) eqn:E; simpl; lia.
    + by destruct c.
  - exists x. split; [|by apply Num_le_refl].
    rewrite <- Hx. unfold get_or.
    destruct (decide (l = proto)) as [->|Hp].
    + by rewrite lookup_assign_proto.
    + rewrite lookup_assign_ne; [done|]. intros E. by apply Hne.
Qed.

(** C2, as the code has it: [displayMap[l] = t] is an assignment, so the
    display string stored for a normalized term is the one of its last
    recording, and the lookup [displayMap[l] || l] returns it.  The key
    [__proto__] is left out: the assignment stores nothing under it. *)
Theorem display_last_writer_wins r papers l :
  l <> proto ->
  displayMap (index_papers r papers init) !! l
  = fst <$> last (recorded_as l (recordings r papers))
  /\ (forall t c,
        last (recorded_as l (recordings r papers)) = Some (t, c) -> t <> [] ->
        display_of (index_papers r papers init) l = Prim t).
Proof.
  intros Hl.
  assert (displayMap (index_papers r papers init) !! l
          = fst <$> last (recorded_as l (recordings r papers))) as E.
  { rewrite index_papers_recordings, displayMap_record_all by done.
    by destruct (last _). }
  split; [done|]. intros t c Hlast Ht. unfold display_of, get_or.
  rewrite E, Hlast. simpl. by destruct t.
Qed.

(** What the code does of C5.  For a key that [Object.prototype] does not
    have and weights that are not negative, the weight that the index
    holds is the greatest of the weights recorded for the key; it is the
    same for every order of the papers; and no recording lowers a weight
    that is a number. *)
Lemma weight_is_max r papers l :
  inherited l = false ->
  (forall w ws, (recorded_as l (recordings r papers)).*2 = w :: ws ->
     Forall (fun w => 0 <= w) (w :: ws) ->
     citations_of (index_papers r papers init) l = Prim (Fin (max_of w ws)))
  /\ (forall papers', papers ≡ₚ papers' ->
       citations_of (index_papers r papers' init) l
       = citations_of (index_papers r papers init) l)
  /\ (forall t c st x, citations_of st l = Prim x ->
        exists y, citations_of (index_term t c st) l = Prim y /\ Num_le x y).
Proof.
  intros Hl. repeat split.
  - intros w ws Hws [Hw _]%Forall_cons.
    by rewrite citations_index_papers, Hws, max_of_nonneg.
  - intros papers' Hperm. rewrite !citations_index_papers by done.
    do 2 f_equal. apply max_of_perm. unfold recorded_as.
    by rewrite (recordings_perm r _ _ Hperm).
  - intros. by apply citations_index_term.
Qed.

Lemma is_Some_record_all rs st u :
  (is_Some (displayMap (record_all rs st) !! u) <->
   is_Some (displayMap st !! u)
   \/ u <> proto /\ exists tc, tc ∈ rs /\ u = toLowerCase tc.1)
  /\ (is_Some (citationsMap (record_all rs st) !! u) <->
      is_Some (citationsMap st !! u)
      \/ u <> proto /\ exists tc, tc ∈ rs /\ u = toLowerCase tc.1).
Proof.
  destruct (decide (u = proto)) as [->|Hu].
  { destruct (record_all_proto rs st) as [-> ->]. split; split; try tauto;
      intros [?|[? _]]; done. }
  induction rs as [|[t c] rs [IH1 IH2]] using rev_ind; simpl.
  - split; (split; [by left|intros [?|(_ & ? & []%elem_of_nil & _)]; done]).
  - rewrite record_all_snoc. simpl.
    assert (forall V (o : gmap jsstring V) v,
              is_Some (assign (toLowerCase t) v o !! u)
              <-> u = toLowerCase t \/ is_Some (o !! u)) as Hassign.
    { intros V o v. destruct (decide (toLowerCase t = u)) as [<-|Hne].
      - rewrite lookup_assign_eq by done. split; [by left|by eexists].
      - rewrite lookup_assign_ne by done. split; [by right|].
        by intros [->|?]. }
    rewrite !Hassign, IH1, IH2.
    split; (split;
      [ intros [->|[?|(_ & tc & ? & ?)]];
          [ right; split; [done|]; exists (t, c); split; [|done];
            apply elem_of_app; right; left
          | by left
          | right; split; [done|]; exists tc; split; [|done];
            apply elem_of_app; by left ]
      | intros [?|(_ & tc & [?|Hin]%elem_of_app & ?)];
          [ right; by left
          | right; right; split; [done|]; by exists tc
          | apply list_elem_of_singleton in Hin as ->; by left ] ]).
Qed.

Lemma index_keys r papers u :
  let st := index_papers r papers init in
  (is_Some (displayMap st !! u) <->
   u <> proto /\ exists tc, tc ∈ recordings r papers /\ u = toLowerCase tc.1)
  /\ (is_Some (citationsMap st !! u) <->
      u <> proto
      /\ exists tc, tc ∈ recordings r papers /\ u = toLowerCase tc.1).
Proof.
  simpl. rewrite index_papers_recordings.
  destruct (is_Some_record_all (recordings r papers) init u) as [-> ->].
  simpl. rewrite !lookup_empty.
  split; (split; [intros [[? [=]]|?]; done | by right]).
Qed.

Lemma trie_words r papers u :
  mem u (trie (index_papers r papers init)) = true <->
  exists tc, tc ∈ recordings r papers /\ tc.1 <> [] /\ u = toLowerCase tc.1.
Proof.
  rewrite index_papers_recordings, trie_record_all. simpl.
  fold (trie_of (recordings r papers).*1). rewrite mem_trie_of. split.
  - intros (T & ([t c] & -> & ?)%list_elem_of_fmap & ? & ?). by exists (t, c).
  - intros ([t c] & ? & ? & ?). exists t. split; [|done].
    apply list_elem_of_fmap. by exists (t, c).
Qed.

Lemma keyword_term_nonempty k t : keyword_term k = Some t -> t <> [].
Proof.
  destruct k as [k|]; simpl; [|done].
  destruct (trim k) eqn:E; [done|]. by intros [= <-].
Qed.

Lemma recordings_Rev2_nonempty papers tc :
  tc ∈ recordings Rev2 papers -> tc.1 <> [].
Proof.
  unfold recordings, paper_terms. simpl.
  intros (p & (t & -> & Ht)%list_elem_of_fmap & _)%list_elem_of_bind.
  rewrite app_nil_r in Ht. apply list_elem_of_omap in Ht as (k & _ & Hk).
  by apply keyword_term_nonempty in Hk.
Qed.

(** In the second revision, where only keywords are indexed, the two
    objects of the index have as keys the terms that the terminal nodes
    spell, [__proto__] apart, which the objects cannot hold. *)
Lemma index_matches_trie_Rev2 papers u :
  let st := index_papers Rev2 papers init in
  (mem u (trie st) = true /\ u <> proto <-> is_Some (displayMap st !! u))
  /\ (mem u (trie st) = true /\ u <> proto <-> is_Some (citationsMap st !! u)).
Proof.
  simpl. destruct (index_keys Rev2 papers u) as [-> ->].
  rewrite trie_words.
  assert ((exists tc, tc ∈ recordings Rev2 papers /\ tc.1 <> []
                      /\ u = toLowerCase tc.1)
          <-> exists tc, tc ∈ recordings Rev2 papers /\ u = toLowerCase tc.1)
    as ->; [|tauto].
  split.
  - intros (tc & ? & _ & ?). by exists tc.
  - intros (tc & Hin & ?). exists tc.
    by pose proof (recordings_Rev2_nonempty _ _ Hin).
Qed.


End loader.

Section degradation.

Lemma failed_no_papers res : failed res -> papers_of res = None.
Proof. destruct res as [|[] ?]; simpl; done. Qed.

Lemma try_fallbacks_requests fetch urls :
  exists n,
    (try_fallbacks fetch urls).1 = take (S n) urls
    /\ Forall (fun u => papers_of (fetch u) = None) (take n urls).
Proof.
  induction urls as [|u urls (n & IH1 & IH2)]; simpl.
  - exists 0%nat. split; [done|constructor].
  - destruct (papers_of (fetch u)) eqn:E.
    + exists 0%nat. simpl. rewrite take_0. split; [done|constructor].
    + exists (S n). destruct (try_fallbacks fetch urls). simpl in *.
      rewrite IH1. split; [done|]. by constructor.
Qed.

Lemma try_fallbacks_all_fail fetch urls :
  Forall (fun u => papers_of (fetch u) = None) urls ->
  try_fallbacks fetch urls = (urls, []).
Proof.
  induction 1 as [|u urls Hu Hall IH]; simpl; [done|]. by rewrite Hu, IH.
Qed.

Lemma suggestions_new prefix limit : suggestions new_TrieNode prefix limit = [].
Proof.
  rewrite suggestions_spec. destruct (toLowerCase prefix); simpl; [|done].
  by rewrite take_nil.
Qed.

Lemma suggestion_list_init prefix : suggestion_list init prefix = [].
Proof. unfold suggestion_list. simpl. by rewrite suggestions_new. Qed.

(** C7: when the request to the primary source fails or is answered with a
    status that is not a success, the fallbacks are requested in the order
    of their list, each one only after the ones before it gave no papers;
    when they all fail too, the trie and the index are left empty, and
    from then on every prefix gets the empty list and no panel. *)
Theorem load_degrades_silently Function_toString r fetch :
  failed (fetch (API_ALL r)) ->
  let (requests, st) := loadAllTermsAndBuildTrie r fetch init in
  (exists n,
     requests = API_ALL r :: take (S n) FALLBACK_PAPERS
     /\ Forall (fun u => papers_of (fetch u) = None) (take n FALLBACK_PAPERS))
  /\ (Forall (fun u => failed (fetch u)) FALLBACK_PAPERS ->
      requests = API_ALL r :: FALLBACK_PAPERS
      /\ st = init
      /\ forall prefix ui,
          suggestion_list st prefix = []
          /\ items (on_input Function_toString st ui) = []
          /\ shown (on_input Function_toString st ui) = false).
Proof.
  intros Hprimary%failed_no_papers. unfold loadAllTermsAndBuildTrie.
  rewrite Hprimary. simpl default. cbv iota.
  pose proof (try_fallbacks_requests fetch FALLBACK_PAPERS) as (n & Hreq & Hnone).
  pose proof (try_fallbacks_all_fail fetch FALLBACK_PAPERS) as Hfail.
  destruct (try_fallbacks fetch FALLBACK_PAPERS) as [reqs papers].
  cbn [fst] in Hreq. split; [exists n; by rewrite Hreq|].
  intros Hall.
  assert (Forall (fun u => papers_of (fetch u) = None) FALLBACK_PAPERS) as H.
  { eapply Forall_impl; [exact Hall|]. intros u. apply failed_no_papers. }
  apply Hfail in H as [= -> ->].
  split; [done|]. split; [done|].
  intros prefix ui. split; [apply suggestion_list_init|].
  unfold on_input, renderSuggestions.
  destruct (trim (inputValue ui)); [done|]. by rewrite suggestion_list_init.
Qed.

End degradation.

Section keyboard.

(** C9: while the panel shows n >= 1 entries, ArrowDown moves the cursor
    one entry on and from the last entry to index 0, ArrowUp moves it one
    entry back and from index 0 to the last entry; with 3 entries and no
    selection, four ArrowDown end on index 0. *)
Theorem arrows_cycle ui :
  let n := Z.of_nat (length (items ui)) in
  let i := currentSelectionIndex ui in
  shown ui = true -> 1 <= n ->
  (-1 <= i < n - 1 ->
     currentSelectionIndex (on_keydown ArrowDown ui) = i + 1)
  /\ (i = n - 1 -> currentSelectionIndex (on_keydown ArrowDown ui) = 0)
  /\ (0 < i <= n - 1 ->
      currentSelectionIndex (on_keydown ArrowUp ui) = i - 1)
  /\ (i = 0 -> currentSelectionIndex (on_keydown ArrowUp ui) = n - 1)
  /\ (n = 3 -> i = -1 ->
      currentSelectionIndex
        (fold_left press [ArrowDown; ArrowDown; ArrowDown; ArrowDown] ui) = 0).
Proof.
  intros n i Hshown Hn. subst n i.
  destruct ui as [v sh its i s]; simpl in *. subst sh.
  assert ((Z.of_nat (length its) >? 0) = true) as Hpos by lia.
  split; [|split; [|split; [|split]]]; intros; rewrite ?Hpos; simpl.
  - destruct (Z.geb_spec (i + 1) (Z.of_nat (length its))); lia.
  - destruct (Z.geb_spec (i + 1) (Z.of_nat (length its))); lia.
  - destruct (Z.ltb_spec (i - 1) 0); lia.
  - destruct (Z.ltb_spec (i - 1) 0); lia.
  - subst i. destruct its as [|a [|b [|c [|d its]]]]; simpl in *; lia.
Qed.

(** C10: with the panel shown, n >= 1 entries and no entry selected,
    ArrowUp moves the cursor to the last entry, index n - 1. *)
Theorem arrow_up_from_none ui :
  let n := Z.of_nat (length (items ui)) in
  shown ui = true -> 1 <= n -> currentSelectionIndex ui = -1 ->
  currentSelectionIndex (on_keydown ArrowUp ui) = n - 1
  /\ 0 <= n - 1 < n.
Proof.
  intros n Hshown Hn Hi. subst n.
  destruct ui as [v sh its i s]; simpl in *. subst sh i.
  assert ((Z.of_nat (length its) >? 0) = true) as -> by lia.
  simpl. lia.
Qed.

End keyboard.

Section trie_more.

Lemma key_compare_rank a b : key_compare a b = (key_rank a ?= key_rank b)%N.
Proof.
  unfold key_compare, key_rank, utf16.
  pose proof (N.mod_lt (a - 0x10000) 0x400 ltac:(done)).
  pose proof (N.mod_lt (b - 0x10000) 0x400 ltac:(done)).
  set (la := ((a - 0x10000) mod 0x400)%N) in *.
  set (lb := ((b - 0x10000) mod 0x400)%N) in *.
  set (ha := ((a - 0x10000) / 0x400)%N).
  set (hb := ((b - 0x10000) / 0x400)%N).
  destruct (N.ltb_spec a 0x10000), (N.ltb_spec b 0x10000); simpl.
  - destruct (N.compare_spec a b); symmetry;
      [apply N.compare_eq_iff|apply N.compare_lt_iff|apply N.compare_gt_iff]; lia.
  - destruct (N.compare_spec a (0xD800 + hb)); symmetry;
      [apply N.compare_lt_iff|apply N.compare_lt_iff|apply N.compare_gt_iff]; lia.
  - destruct (N.compare_spec (0xD800 + ha) b); symmetry;
      [apply N.compare_gt_iff|apply N.compare_lt_iff|apply N.compare_gt_iff]; lia.
  - destruct (N.compare_spec (0xD800 + ha) (0xD800 + hb)) as [E| |];
      [|symmetry; apply N.compare_lt_iff; lia|symmetry; apply N.compare_gt_iff; lia].
    destruct (N.compare_spec (0xDC00 + la) (0xDC00 + lb)); symmetry;
      [apply N.compare_eq_iff|apply N.compare_lt_iff|apply N.compare_gt_iff]; lia.
Qed.

Lemma key_ltb_rank_true a b : key_ltb a b = true -> (key_rank a < key_rank b)%N.
Proof.
  unfold key_ltb. rewrite key_compare_rank.
  destruct (N.compare_spec (key_rank a) (key_rank b)); done.
Qed.

Lemma key_ltb_rank_false a b : key_ltb a b = false -> (key_rank b <= key_rank a)%N.
Proof.
  unfold key_ltb. rewrite key_compare_rank.
  destruct (N.compare_spec (key_rank a) (key_rank b)); try done; lia.
Qed.

Lemma key_rank_ne a b : a <> b -> key_rank a <> key_rank b.
Proof.
  intros Hne E. apply Hne, key_compare_eq. rewrite key_compare_rank.
  by apply N.compare_eq_iff.
Qed.

Ltac key_order :=
  repeat match goal with
    | H : key_ltb _ _ = true |- _ => apply key_ltb_rank_true in H
    | H : key_ltb _ _ = false |- _ => apply key_ltb_rank_false in H
    | H : ?a <> ?b |- _ =>
        lazymatch a with
        | key_rank _ => fail
        | _ => apply key_rank_ne in H
        end
    end;
  lia.

Ltac key_cases :=
  repeat (simpl;
    match goal with
    | |- context [(?a =? ?b)%N] => destruct (N.eqb_spec a b); subst
    | |- context [key_ltb ?a ?b] => destruct (key_ltb a b) eqn:?
    end).

Lemma set_child_twice ch c c' cs :
  set_child ch c' (set_child ch c cs) = set_child ch c' cs.
Proof.
  induction cs as [|[k c0] cs IH]; key_cases; try done; try key_order;
    by rewrite IH.
Qed.

Lemma set_child_comm a b A B cs :
  a <> b ->
  set_child a A (set_child b B cs) = set_child b B (set_child a A cs).
Proof.
  intros Hne. induction cs as [|[k c0] cs IH]; key_cases;
    try done; try key_order; by rewrite IH.
Qed.

Lemma insert_from_twice chars node :
  insert_from chars (insert_from chars node) = insert_from chars node.
Proof.
  revert node; induction chars as [|ch rest IH]; intros [b cs]; simpl; [done|].
  rewrite get_set_child. destruct (decide (ch = ch)); [|done]. simpl.
  by rewrite IH, set_child_twice.
Qed.

Lemma insert_from_comm u v node :
  insert_from u (insert_from v node) = insert_from v (insert_from u node).
Proof.
  revert v node; induction u as [|a u IH]; intros [|b v] [w cs]; simpl;
    try done.
  rewrite !get_set_child.
  destruct (decide (a = b)) as [->|Hne].
  - destruct (decide (b = b)); [|done]. simpl.
    by rewrite !set_child_twice, IH.
  - destruct (decide (b = a)); [congruence|].
    by rewrite set_child_comm.
Qed.

Lemma insert_twice w root : insert w (insert w root) = insert w root.
Proof. destruct w; simpl; [done|]. apply insert_from_twice. Qed.

Lemma insert_comm u v root :
  insert u (insert v root) = insert v (insert u root).
Proof. destruct u, v; simpl; try done. apply insert_from_comm. Qed.

Lemma fold_insert_perm terms terms' root :
  terms ≡ₚ terms' ->
  fold_left (fun t w => insert w t) terms root
  = fold_left (fun t w => insert w t) terms' root.
Proof.
  intros Hperm; revert root.
  induction Hperm as [|x l l' _ IH|x y l|l l' l'' _ IH1 _ IH2]; intros root;
    simpl; [done|done| |].
  - by rewrite insert_comm.
  - by rewrite IH1.
Qed.

Lemma fold_insert_again terms w root :
  w ∈ terms ->
  fold_left (fun t w => insert w t) terms (insert w root)
  = fold_left (fun t w => insert w t) terms root.
Proof.
  revert root; induction terms as [|x terms IH]; intros root.
  - by intros ?%elem_of_nil.
  - intros [->|Hin]%elem_of_cons; simpl.
    + by rewrite insert_twice.
    + by rewrite insert_comm, IH.
Qed.

Lemma fold_insert_remove_dups terms root :
  fold_left (fun t w => insert w t) (remove_dups terms) root
  = fold_left (fun t w => insert w t) terms root.
Proof.
  revert root; induction terms as [|x terms IH]; intros root; simpl; [done|].
  destruct (decide_rel elem_of x terms).
  - by rewrite IH, fold_insert_again.
  - simpl. by rewrite IH.
Qed.

Lemma fold_insert_out terms w root :
  fold_left (fun t w => insert w t) terms (insert w root)
  = insert w (fold_left (fun t w => insert w t) terms root).
Proof.
  revert root; induction terms as [|x terms IH]; intros root; simpl; [done|].
  by rewrite insert_comm, IH.
Qed.

(** X1: inserting a term twice in a row gives what inserting it once
    gives, and inserting a term that was inserted at any time before leaves
    the trie as it is. *)
Theorem insert_idempotent terms w root :
  insert w (insert w root) = insert w root
  /\ (w ∈ terms -> insert w (trie_of terms) = trie_of terms).
Proof.
  split; [apply insert_twice|].
  intros Hin. unfold trie_of.
  by rewrite <- fold_insert_out, fold_insert_again.
Qed.

(** X2: the trie, and with it every list of suggestions, depends on the set
    of the inserted terms only, not on their order nor on repetitions. *)
Theorem trie_of_set terms terms' :
  (forall T, T ∈ terms <-> T ∈ terms') ->
  trie_of terms = trie_of terms'
  /\ forall p limit,
       suggestions (trie_of terms) p limit = suggestions (trie_of terms') p limit.
Proof.
  intros Hset.
  assert (trie_of terms = trie_of terms') as ->; [|done].
  unfold trie_of.
  rewrite <- (fold_insert_remove_dups terms), <- (fold_insert_remove_dups terms').
  apply fold_insert_perm, NoDup_Permutation; try apply NoDup_remove_dups.
  intros T. by rewrite !elem_of_remove_dups.
Qed.

(** X3: a greater limit only appends suggestions, and the number of
    suggestions is the limit or the number of all matches, whichever is
    less. *)
Theorem suggestions_limit_monotone root p limit limit' :
  limit <= limit' ->
  suggestions root p limit `prefix_of` suggestions root p limit'
  /\ length (suggestions root p limit)
     = Nat.min (Z.to_nat limit) (length (suggestions root p limit')).
Proof.
  intros Hle. rewrite !suggestions_spec.
  destruct (_getNode _ root) as [node|]; [|split; [done|simpl; lia]].
  split.
  - exists (app (toLowerCase p)
              <$> drop (Z.to_nat limit) (take (Z.to_nat limit') (words node))).
    rewrite <- fmap_app. f_equal.
    rewrite <- (take_drop (Z.to_nat limit) (take (Z.to_nat limit') (words node)))
      at 1.
    f_equal. rewrite take_take. f_equal. lia.
  - rewrite !length_fmap, !length_take. lia.
Qed.

Lemma head_suggestions root p limit :
  mem (toLowerCase p) root = true -> 1 <= limit ->
  head (suggestions root p limit) = Some (toLowerCase p).
Proof.
  unfold mem. intros Hmem Hlimit. rewrite suggestions_spec.
  destruct (_getNode _ root) as [[w cs]|]; [|done].
  simpl in Hmem. subst w. simpl.
  destruct (Z.to_nat limit) as [|n] eqn:E; [lia|]. simpl.
  by rewrite app_nil_r.
Qed.

(** X4: when the prefix itself is a term of the trie and the limit is at
    least 1, the prefix, lower-cased, is the first suggestion. *)
Theorem exact_match_first root p limit :
  mem (toLowerCase p) root = true -> 1 <= limit ->
  head (suggestions root p limit) = Some (toLowerCase p).
Proof. apply head_suggestions. Qed.

(** X5: every suggestion is the lower-cased form of an inserted term that
    is not empty and starts with the prefix, case ignored; it starts with
    the lower-cased prefix, and no suggestion occurs twice. *)
Theorem suggestions_are_matches terms p limit :
  let out := suggestions (trie_of terms) p limit in
  NoDup out
  /\ forall u, u ∈ out ->
       toLowerCase p `prefix_of` u
       /\ exists T, T ∈ terms /\ T <> [] /\ ci_prefix p T /\ u = toLowerCase T.
Proof.
  intros out. split.
  - subst out. rewrite suggestions_spec.
    destruct (_getNode _ (trie_of terms)) as [node|] eqn:Hnode; [|constructor].
    apply NoDup_fmap_2; [apply _|].
    apply (sublist_NoDup _ (words node)); [|apply sublist_take].
    apply sorted_NoDup, words_sorted.
    exact (wf_getNode _ _ _ (wf_trie_of terms) Hnode).
  - intros u Hu.
    destruct (suggestions_sound terms p limit u Hu) as (T & ? & ? & HT & ->).
    split; [exact HT|by exists T].
Qed.

End trie_more.

Section panel.

Lemma panel_ok_clear ui : panel_ok (clearSuggestions ui).
Proof. split; simpl; [by left|done]. Qed.

Lemma panel_ok_render Function_toString st q ui :
  panel_ok (renderSuggestions Function_toString st q ui).
Proof.
  unfold renderSuggestions. destruct (suggestion_list st q).
  - apply panel_ok_clear.
  - split; simpl; [by left|done].
Qed.

Lemma panel_ok_doSearch ui : panel_ok ui -> panel_ok (doSearch ui).
Proof. unfold doSearch. by destruct (trim (inputValue ui)). Qed.

Lemma panel_ok_keydown k ui : panel_ok ui -> panel_ok (on_keydown k ui).
Proof.
  intros [Hi Hshown]. destruct k; simpl.
  - destruct (shown ui && _) eqn:E; [|done].
    apply andb_true_iff in E as [_ Hn]. split; [|done]. simpl. right.
    destruct (Z.geb_spec (currentSelectionIndex ui + 1)
                (Z.of_nat (length (items ui)))); lia.
  - destruct (shown ui && _) eqn:E; [|done].
    apply andb_true_iff in E as [_ Hn]. split; [|done]. simpl. right.
    destruct (Z.ltb_spec (currentSelectionIndex ui - 1) 0); lia.
  - destruct ((currentSelectionIndex ui >? -1) && shown ui).
    + destruct (items ui !! _); [apply panel_ok_clear|done].
    + by apply panel_ok_doSearch.
  - apply panel_ok_clear.
  - done.
Qed.

Lemma panel_ok_handle Function_toString r ui e :
  panel_ok ui -> panel_ok (handle Function_toString r ui e).
Proof.
  intros Hok. destruct e as [st [text| |k|i| |]]; simpl.
  - done.
  - unfold on_input. destruct (trim (inputValue ui));
      [apply panel_ok_clear|apply panel_ok_render].
  - destruct r; [|by apply panel_ok_keydown].
    destruct k; simpl; try done;
      [by apply panel_ok_doSearch|apply panel_ok_clear].
  - destruct (items ui !! i); [|done].
    destruct r; simpl; [apply panel_ok_clear|].
    apply panel_ok_doSearch, panel_ok_clear.
  - apply panel_ok_clear.
  - destruct r; simpl; [done|].
    destruct (trim (inputValue ui)); [done|apply panel_ok_render].
Qed.

(** X6: whatever happens to the page, in any order and with any contents
    of the trie and the index at each time, the cursor stays none or the
    index of an item of the panel, and the panel has items only while it is
    displayed. *)
Theorem panel_invariant Function_toString r events ui :
  panel_ok ui -> panel_ok (fold_left (handle Function_toString r) events ui).
Proof.
  revert ui; induction events as [|e events IH]; intros ui Hok; simpl; [done|].
  by apply IH, panel_ok_handle.
Qed.

(** X7: in a panel as the listeners leave it, Enter is never a dead key:
    without a selection it runs the search of the text of the input, with
    a selection it puts the term of the selected item into the input,
    clears the panel and starts no search. *)
Theorem enter_commits_or_searches ui :
  panel_ok ui ->
  (currentSelectionIndex ui = -1 -> on_keydown Enter ui = doSearch ui)
  /\ (0 <= currentSelectionIndex ui ->
      exists t,
        items ui !! Z.to_nat (currentSelectionIndex ui) = Some t
        /\ on_keydown Enter ui
           = {| inputValue := t; shown := false; items := [];
                currentSelectionIndex := -1; searched := searched ui |}).
Proof.
  intros [Hi Hshown]. split.
  - intros E. simpl. by rewrite E.
  - intros Hpos. destruct Hi as [Hi|Hi]; [lia|].
    destruct (lookup_lt_is_Some_2 (items ui)
                (Z.to_nat (currentSelectionIndex ui))) as [t Ht]; [lia|].
    exists t. split; [done|]. simpl.
    rewrite Hshown by (intros E; rewrite E in Hi; simpl in Hi; lia).
    replace (currentSelectionIndex ui >? -1) with true by lia.
    simpl. by rewrite Ht.
Qed.

Lemma keydown_down ui :
  shown ui = true -> 1 <= Z.of_nat (length (items ui)) ->
  on_keydown ArrowDown ui
  = select (if currentSelectionIndex ui + 1 >=? Z.of_nat (length (items ui))
            then 0 else currentSelectionIndex ui + 1) ui.
Proof.
  intros Hs Hn. simpl. rewrite Hs.
  by replace (Z.of_nat (length (items ui)) >? 0) with true by lia.
Qed.

Lemma keydown_up ui :
  shown ui = true -> 1 <= Z.of_nat (length (items ui)) ->
  on_keydown ArrowUp ui
  = select (if currentSelectionIndex ui - 1 <? 0
            then Z.of_nat (length (items ui)) - 1
            else currentSelectionIndex ui - 1) ui.
Proof.
  intros Hs Hn. simpl. rewrite Hs.
  by replace (Z.of_nat (length (items ui)) >? 0) with true by lia.
Qed.

(** X8: while an item is selected, ArrowUp undoes ArrowDown and ArrowDown
    undoes ArrowUp: the page is as it was before the two keys. *)
Theorem arrows_undo_each_other ui :
  shown ui = true ->
  0 <= currentSelectionIndex ui < Z.of_nat (length (items ui)) ->
  on_keydown ArrowUp (on_keydown ArrowDown ui) = ui
  /\ on_keydown ArrowDown (on_keydown ArrowUp ui) = ui.
Proof.
  intros Hs Hi.
  rewrite (keydown_down ui), (keydown_up ui) by (done || lia).
  rewrite keydown_up, keydown_down by (done || simpl; lia).
  destruct ui as [v sh its i s]; simpl in *. unfold select; simpl.
  split; f_equal.
  - destruct (Z.geb_spec (i + 1) (Z.of_nat (length its)));
      [destruct (Z.ltb_spec (0 - 1) 0)|destruct (Z.ltb_spec (i + 1 - 1) 0)]; lia.
  - destruct (Z.ltb_spec (i - 1) 0);
      [destruct (Z.geb_spec (Z.of_nat (length its) - 1 + 1) (Z.of_nat (length its)))
      |destruct (Z.geb_spec (i - 1 + 1) (Z.of_nat (length its)))]; lia.
Qed.

(** X9: with n >= 1 items shown, k >= 1 presses of ArrowDown move the
    cursor from i, none (-1) included, to (i + k) mod n; so n presses bring
    a selection back to where it was. *)
Theorem arrow_down_cycles ui k :
  let n := Z.of_nat (length (items ui)) in
  shown ui = true -> 1 <= n -> -1 <= currentSelectionIndex ui < n ->
  (1 <= k)%nat ->
  currentSelectionIndex (Nat.iter k (on_keydown ArrowDown) ui)
  = (currentSelectionIndex ui + Z.of_nat k) mod n.
Proof.
  intros n Hs Hn Hi Hk. subst n.
  assert (forall j, shown (Nat.iter j (on_keydown ArrowDown) ui) = true
                    /\ items (Nat.iter j (on_keydown ArrowDown) ui) = items ui)
    as Hsame.
  { induction j as [|j [IH1 IH2]]; [done|]. rewrite Nat.iter_succ.
    rewrite keydown_down by (rewrite ?IH2; done). by simpl. }
  induction k as [|k IH]; [lia|]. rewrite Nat.iter_succ.
  destruct (Hsame k) as [Hs' Hits].
  rewrite keydown_down by (rewrite ?Hits; done). simpl. rewrite Hits.
  set (n := Z.of_nat (length (items ui))) in *.
  destruct k as [|k].
  - simpl. replace (currentSelectionIndex ui + Z.of_nat 1)
      with (currentSelectionIndex ui + 1) by lia.
    destruct (Z.geb_spec (currentSelectionIndex ui + 1) n).
    + replace (currentSelectionIndex ui + 1) with n by lia.
      by rewrite Z.mod_same by lia.
    + rewrite Z.mod_small; lia.
  - rewrite IH by lia.
    pose proof (Z.mod_pos_bound (currentSelectionIndex ui + Z.of_nat (S k)) n
                  ltac:(lia)) as Hb.
    set (m := (currentSelectionIndex ui + Z.of_nat (S k)) mod n) in *.
    replace (currentSelectionIndex ui + Z.of_nat (S (S k)))
      with ((currentSelectionIndex ui + Z.of_nat (S k)) + 1) by lia.
    rewrite <- Zplus_mod_idemp_l. fold m.
    destruct (Z.geb_spec (m + 1) n).
    + replace (m + 1) with n by lia. by rewrite Z.mod_same by lia.
    + rewrite Z.mod_small; lia.
Qed.

End panel.

Section escaping.

Lemma replace_all_app c r s1 s2 :
  replace_all c r (s1 ++ s2) = replace_all c r s1 ++ replace_all c r s2.
Proof. apply bind_app. Qed.

Lemma escapeHtml_cons a s :
  escapeHtml (Some (a :: s)) = escape_char a ++ escapeHtml (Some s).
Proof.
  unfold escapeHtml. simpl default.
  change (a :: s) with ([a] ++ s). rewrite !replace_all_app. f_equal.
  unfold escape_char, replace_all.
  repeat (simpl;
    match goal with
    | |- context [(a =? ?k)%N] =>
        destruct (N.eqb_spec a k) as [->|?]; [by vm_compute|]
    end).
  done.
Qed.

Lemma escapeHtml_chars v : escapeHtml v = default [] v ≫= escape_char.
Proof.
  destruct v as [s|]; [|done]. simpl default.
  induction s as [|a s IH]; [done|].
  by rewrite escapeHtml_cons, IH.
Qed.

Lemma escape_char_no_markup a : Forall (fun c => ~ markup c) (escape_char a).
Proof.
  unfold escape_char, markup.
  repeat match goal with
    | |- context [(a =? ?k)%N] =>
        destruct (N.eqb_spec a k) as [->|?];
          [ cbv -[not];
            repeat (constructor; [intros [?|[?|[?|?]]]; done|]);
            constructor |]
    end.
  constructor; [|constructor]. intros [?|[?|[?|?]]]; done.
Qed.

Lemma escape_char_cancel a b x y :
  escape_char a ++ x = escape_char b ++ y -> a = b /\ x = y.
Proof.
  unfold escape_char.
  repeat match goal with
    | |- context [(a =? ?k)%N] => destruct (N.eqb_spec a k) as [->|?]
    end;
  repeat match goal with
    | |- context [(b =? ?k)%N] => destruct (N.eqb_spec b k) as [->|?]
    end;
  simpl; intros [=]; subst; done.
Qed.

(** X11: the text that [escapeHtml] returns holds none of the characters
    less-than, greater-than, double quote and single quote; each character
    of the input is replaced on its own, the ampersands that the
    replacements write are not escaped again, and a text without the five
    characters comes back as it is. *)
Theorem escapeHtml_no_markup v :
  Forall (fun c => ~ markup c) (escapeHtml v)
  /\ escapeHtml v = default [] v ≫= escape_char
  /\ (Forall (fun c => c <> 38%N /\ ~ markup c) (default [] v) ->
      escapeHtml v = default [] v).
Proof.
  clear toLowerCase.
  rewrite escapeHtml_chars. split; [|split; [done|]].
  - apply Forall_bind, Forall_forall. intros a _. apply escape_char_no_markup.
  - induction 1 as [|a s [Ha Hm] Hs IH]; [done|].
    rewrite bind_cons, IH. unfold markup in Hm. unfold escape_char.
    repeat match goal with
      | |- context [(a =? ?k)%N] => destruct (N.eqb_spec a k) as [->|?]; [tauto|]
      end.
    done.
Qed.

(** X12: [escapeHtml] loses nothing: two strings with the same escaped
    text are the same string. *)
Theorem escapeHtml_injective s s' :
  escapeHtml (Some s) = escapeHtml (Some s') -> s = s'.
Proof.
  rewrite !escapeHtml_chars. simpl default.
  revert s'; induction s as [|a s IH]; intros [|b s'].
  - done.
  - rewrite bind_cons. unfold escape_char.
    repeat match goal with
      | |- context [(b =? ?k)%N] => destruct (N.eqb_spec b k); [done|]
      end.
    done.
  - rewrite bind_cons. unfold escape_char.
    repeat match goal with
      | |- context [(a =? ?k)%N] => destruct (N.eqb_spec a k); [done|]
      end.
    done.
  - rewrite !bind_cons. intros [-> E]%escape_char_cancel. f_equal. by apply IH.
Qed.

Lemma esc_cons a s :
  esc (Some (a :: s))
  = (if (a =? 38)%N then str "&amp;"
     else if (a =? 60)%N then str "&lt;"
     else if (a =? 62)%N then str "&gt;" else [a])
    ++ esc (Some s).
Proof.
  unfold esc. simpl default.
  change (a :: s) with ([a] ++ s). rewrite !replace_all_app. f_equal.
  unfold replace_all.
  repeat (simpl;
    match goal with
    | |- context [(a =? ?k)%N] =>
        destruct (N.eqb_spec a k) as [->|?]; [by vm_compute|]
    end).
  done.
Qed.

(** X13: the text that [esc] returns holds no less-than and no
    greater-than, but [esc] keeps the quotes: a double quote of the input
    is a double quote of the output. *)
Theorem esc_keeps_quotes s :
  Forall (fun c => c <> 60%N /\ c <> 62%N) (esc (Some s))
  /\ (34%N ∈ s <-> 34%N ∈ esc (Some s)).
Proof.
  induction s as [|a s [IH1 IH2]].
  - split; [constructor|done].
  - rewrite esc_cons, Forall_app, elem_of_app, elem_of_cons, <- IH2.
    repeat match goal with
      | |- context [(a =? ?k)%N] => destruct (N.eqb_spec a k) as [->|?]
      end;
      (split; [split; [cbv -[not]; repeat constructor; lia|done]|]);
      rewrite ?list_elem_of_singleton;
      (split; [intros [?|?]; [done || by left|by right]|]);
      (intros [H|?]; [|by right]); try (by left);
      cbv in H;
      repeat (apply elem_of_cons in H as [[=]|H]);
      by apply elem_of_nil in H.
Qed.

End escaping.

Section index_more.

Lemma trimStart_suffix s : exists pre, s = pre ++ trimStart s.
Proof.
  induction s as [|c s [pre IH]]; simpl; [by exists []|].
  destruct (is_ws c); [|by exists []].
  exists (c :: pre). simpl. by f_equal.
Qed.

Lemma trimStart_head s :
  match trimStart s with
  | c :: _ => is_ws c = false
  | [] => True
  end.
Proof.
  induction s as [|c s IH]; simpl; [done|].
  by destruct (is_ws c) eqn:E.
Qed.

Lemma trimStart_id c s : is_ws c = false -> trimStart (c :: s) = c :: s.
Proof. simpl. by intros ->. Qed.

Lemma trimStart_fixed s :
  match s with c :: _ => is_ws c = false | [] => True end -> trimStart s = s.
Proof. destruct s; [done|]. apply trimStart_id. Qed.

Lemma trim_trimmed s : trim (trim s) = trim s.
Proof.
  unfold trim at 2 3.
  pose proof (trimStart_head s) as Hx.
  set (x := trimStart s) in *.
  pose proof (trimStart_head (rev x)) as Hy.
  destruct (trimStart_suffix (rev x)) as [pre Hpre].
  set (y := trimStart (rev x)) in *.
  assert (x = rev y ++ rev pre) as Ex.
  { by rewrite <- rev_app_distr, <- Hpre, rev_involutive. }
  unfold trim. rewrite (trimStart_fixed (rev y)).
  - rewrite rev_involutive. by rewrite (trimStart_fixed y).
  - destruct (rev y) as [|c l] eqn:E; [done|].
    rewrite Ex in Hx. by simpl in Hx.
Qed.

Lemma keyword_term_trimmed k t : keyword_term k = Some t -> trim t = t.
Proof.
  destruct k as [k|]; simpl; [|done].
  destruct (trim k) eqn:E; [done|]. intros [= <-].
  by rewrite <- E, trim_trimmed.
Qed.

Lemma recordings_Rev2_trimmed papers tc :
  tc ∈ recordings Rev2 papers -> tc.1 <> [] /\ trim tc.1 = tc.1.
Proof.
  intros Hin. split; [by apply (recordings_Rev2_nonempty papers)|].
  revert Hin. unfold recordings, paper_terms. simpl.
  intros (p & (t & -> & Ht)%list_elem_of_fmap & _)%list_elem_of_bind.
  rewrite app_nil_r in Ht. apply list_elem_of_omap in Ht as (k & _ & Hk).
  by apply keyword_term_trimmed in Hk.
Qed.

Lemma displayMap_Rev2 papers u t :
  displayMap (index_papers Rev2 papers init) !! u = Some t ->
  t <> [] /\ trim t = t /\ toLowerCase t = u.
Proof.
  destruct (decide (u = proto)) as [->|Hu].
  { rewrite index_papers_recordings.
    destruct (record_all_proto (recordings Rev2 papers) init) as [-> _].
    simpl. by rewrite lookup_empty. }
  rewrite index_papers_recordings, displayMap_record_all by done. simpl.
  destruct (last _) as [[t' c]|] eqn:E; [|by rewrite lookup_empty].
  intros [= <-]. apply last_Some_elem_of in E.
  apply list_elem_of_filter in E as [Hu' Hin].
  destruct (recordings_Rev2_trimmed _ _ Hin). done.
Qed.

Lemma trie_index_papers r papers :
  trie (index_papers r papers init) = trie_of (recordings r papers).*1.
Proof. by rewrite index_papers_recordings, trie_record_all. Qed.

Lemma index_consistent_dom papers :
  dom (displayMap (index_papers Rev2 papers init))
  = dom (citationsMap (index_papers Rev2 papers init)).
Proof.
  apply set_eq. intros u. rewrite !elem_of_dom.
  destruct (index_keys Rev2 papers u) as [H1 H2]. simpl in *.
  by rewrite H1, H2.
Qed.

(** X14: in the second revision the two objects of the index hold the same
    keys: the terms that the terminal nodes of the trie spell, except
    [__proto__], which the trie can hold and the objects cannot; and every
    display string is a trimmed keyword, not empty, whose lower-cased form
    is its key. *)
Theorem index_consistent_Rev2 papers :
  let st := index_papers Rev2 papers init in
  dom (displayMap st) = dom (citationsMap st)
  /\ (forall u, u ∈ dom (displayMap st) <-> u ∈ words (trie st) /\ u <> proto)
  /\ (forall u t, displayMap st !! u = Some t ->
        t <> [] /\ trim t = t /\ toLowerCase t = u).
Proof.
  intros st. split; [|split].
  - apply index_consistent_dom.
  - intros u. rewrite elem_of_dom, words_mem.
    + destruct (index_matches_trie_Rev2 papers u) as [H _]. fold st in H.
      by rewrite H.
    + subst st. rewrite trie_index_papers. apply wf_trie_of.
  - apply displayMap_Rev2.
Qed.

Lemma js_sort_fmap {A B} (f : A -> B) cmpA cmpB (l : list A) :
  (forall a b, cmpA a b = cmpB (f a) (f b)) ->
  f <$> js_sort cmpA l = js_sort cmpB (f <$> l).
Proof.
  intros Hcmp.
  assert (forall x l', f <$> sort_insert cmpA x l'
                       = sort_insert cmpB (f x) (f <$> l')) as Hins.
  { intros x l'. induction l' as [|y l' IH]; [done|].
    rewrite fmap_cons. simpl sort_insert. rewrite <- Hcmp.
    destruct (cmpA x y <=? 0); [done|]. by rewrite fmap_cons, IH. }
  induction l as [|x l IH]; [done|].
  rewrite fmap_cons. simpl js_sort. by rewrite Hins, IH.
Qed.

Lemma ranked_spec st prefix :
  ranked st prefix
  = js_sort (fun a b : jsstring * Read Num =>
               difference (ToNumber b.2) (ToNumber a.2))
      ((fun k => (k, citations_of st k)) <$> suggestions (trie st) prefix 8).
Proof.
  unfold ranked, suggestion_list.
  rewrite (js_sort_fmap _ _ (fun a b : jsstring * Read Num =>
                               difference (ToNumber b.2) (ToNumber a.2)))
    by done.
  by rewrite <- list_fmap_compose.
Qed.

(** X15: when no term of the papers has a key that [Object.prototype]
    has, the keys of the suggestions, their weights and their order do not
    depend on the order in which the papers were loaded. *)
Theorem ranking_ignores_paper_order r papers papers' prefix :
  papers ≡ₚ papers' ->
  (forall tc, tc ∈ recordings r papers -> inherited (toLowerCase tc.1) = false) ->
  ranked (index_papers r papers init) prefix
  = ranked (index_papers r papers' init) prefix.
Proof.
  intros Hperm Hkeys. rewrite !ranked_spec, !trie_index_papers.
  assert (trie_of (recordings r papers).*1 = trie_of (recordings r papers').*1)
    as <-.
  { apply fold_insert_perm. by rewrite (recordings_perm r _ _ Hperm). }
  f_equal. apply list_fmap_ext. intros i k Hk. f_equal.
  apply list_elem_of_lookup_2, suggestions_sound in Hk as (T & HT & _ & _ & ->).
  apply list_elem_of_fmap in HT as (tc & -> & Htc).
  rewrite !citations_index_papers by by apply Hkeys.
  do 2 f_equal. apply max_of_perm. unfold recorded_as.
  by rewrite (recordings_perm r _ _ Hperm).
Qed.


(** X23: how far the index can leave the trie.  An entry of the index
    whose key no terminal node spells is the entry of the empty token of a
    title: it exists in the first revision only, and its key is the
    lower-cased empty string. *)
Theorem index_only_misses_empty_token r papers u :
  let st := index_papers r papers init in
  is_Some (displayMap st !! u) \/ is_Some (citationsMap st !! u) ->
  mem u (trie st) = false ->
  r = Rev1 /\ u = toLowerCase []
  /\ exists c, ([], c) ∈ recordings r papers.
Proof.
  intros st Hkey Hmem.
  assert (exists tc, tc ∈ recordings r papers /\ u = toLowerCase tc.1)
    as ([t c] & Hin & ->).
  { destruct (index_keys r papers u) as [H1 H2]. fold st in H1, H2.
    destruct Hkey as [H|H]; [by apply H1 in H as [_ ?]|by apply H2 in H as [_ ?]]. }
  simpl in *. destruct t as [|a t].
  - split; [|split; [done|by exists c]].
    destruct r; [done|]. by destruct (recordings_Rev2_nonempty _ _ Hin).
  - assert (mem (toLowerCase (a :: t)) (trie st) = true) as E.
    { apply trie_words. by exists (a :: t, c). }
    congruence.
Qed.

(** X10: which terms the panel shows does not depend on the weights: the
    keys of the list of [renderSuggestions] are the first 8 matches in the
    order of the trie, so that a match beyond the first 8 is not shown
    however great its weight is. *)
Theorem shown_keys_ignore_weights st prefix limit :
  8 <= limit ->
  key <$> suggestion_list st prefix
  ≡ₚ take 8 (suggestions (trie st) prefix limit).
Proof.
  intros Hlimit. unfold suggestion_list.
  rewrite js_sort_perm, <- list_fmap_compose.
  rewrite (list_fmap_ext (key ∘ resolve st) id) by done.
  rewrite list_fmap_id, !suggestions_spec.
  destruct (_getNode _ (trie st)); [|done].
  rewrite <- fmap_take, take_take.
  by replace (Nat.min 8 (Z.to_nat limit)) with (Z.to_nat 8) by lia.
Qed.

End index_more.

Section analytics.

#[local] Set Warnings "-clear-no-such-hyp".

Lemma lookup_assign {V} (o : gmap jsstring V) k v l :
  assign k v o !! l = if decide (k = l /\ k <> proto) then Some v else o !! l.
Proof.
  destruct (decide (k = l /\ k <> proto)) as [[<- Hk]|Hne].
  - by apply lookup_assign_eq.
  - destruct (decide (k = l)) as [<-|Hkl].
    + destruct (decide (k = proto)) as [->|Hk]; [|tauto].
      apply lookup_assign_proto.
    + by apply lookup_assign_ne.
Qed.

Lemma count_keyword_key cites seen stats kw :
  count_keyword cites (seen, stats) kw
  = match doc_key kw with
    | None => (seen, stats)
    | Some k =>
        if decide (k ∈ seen) then (seen, stats)
        else
          ({[k]} ∪ seen,
           {| totalReferences := totalReferences stats;
              keywordFreq :=
                assign k (counted (keywordFreq stats) k (Fin 1))
                  (keywordFreq stats);
              keywordCitations :=
                assign k (counted (keywordCitations stats) k (Fin cites))
                  (keywordCitations stats) |})
    end.
Proof.
  destruct kw as [kw|]; simpl; [|done]. by destruct (toLowerCase (trim kw)).
Qed.

Lemma counted_assign_ne (o : gmap jsstring Count) k0 v k c :
  k0 <> k -> counted (assign k0 v o) k c = counted o k c.
Proof. intros Hne. unfold counted, get_or. by rewrite lookup_assign_ne. Qed.

Lemma count_keywords_spec cites kws : forall seen stats,
  let r := fold_left (count_keyword cites) kws (seen, stats) in
  let fresh k := k ∈ omap doc_key kws /\ (k ∉ seen) /\ k <> proto in
  totalReferences r.2 = totalReferences stats
  /\ r.1 = list_to_set (omap doc_key kws) ∪ seen
  /\ (forall k,
        keywordFreq r.2 !! k
        = if decide (fresh k)
          then Some (counted (keywordFreq stats) k (Fin 1))
          else keywordFreq stats !! k)
  /\ (forall k,
        keywordCitations r.2 !! k
        = if decide (fresh k)
          then Some (counted (keywordCitations stats) k (Fin cites))
          else keywordCitations stats !! k).
Proof.
  induction kws as [|kw kws IH]; intros seen stats.
  - simpl. split; [done|]. split; [set_solver|].
    split; intros k; done.
  - cbn [fold_left omap list_omap]. rewrite count_keyword_key.
    destruct (doc_key kw) as [k0|] eqn:Ek; [|apply IH].
    destruct (decide (k0 ∈ seen)) as [Hseen|Hseen].
    + destruct (IH seen stats) as (H1 & H2 & H3 & H4).
      split; [done|]. split; [rewrite H2; set_solver|].
      split; intros k; rewrite ?H3, ?H4;
        repeat case_decide; try done; exfalso; set_solver.
    + destruct (IH ({[k0]} ∪ seen)
                  {| totalReferences := totalReferences stats;
                     keywordFreq :=
                       assign k0 (counted (keywordFreq stats) k0 (Fin 1))
                         (keywordFreq stats);
                     keywordCitations :=
                       assign k0 (counted (keywordCitations stats) k0 (Fin cites))
                         (keywordCitations stats) |}) as (H1 & H2 & H3 & H4).
      simpl in *.
      split; [done|]. split; [rewrite H2; set_solver|].
      split; intros k; rewrite ?H3, ?H4; simpl;
        rewrite !lookup_assign;
        destruct (decide (k0 = k)) as [->|Hne];
        rewrite ?counted_assign_ne by done;
        repeat case_decide; try done; exfalso; set_solver.
Qed.

Lemma count_doc_spec stats d :
  let stats' := count_doc stats d in
  let cites := default 0 (citations_count (doc_paper d)) in
  totalReferences stats'
  = match doc_references d with
    | Some refs => js_add (totalReferences stats) (Fin (Z.of_nat (length refs)))
    | None => totalReferences stats
    end
  /\ (forall k,
        keywordFreq stats' !! k
        = if decide (k ∈ doc_keys d /\ k <> proto)
          then Some (counted (keywordFreq stats) k (Fin 1))
          else keywordFreq stats !! k)
  /\ (forall k,
        keywordCitations stats' !! k
        = if decide (k ∈ doc_keys d /\ k <> proto)
          then Some (counted (keywordCitations stats) k (Fin cites))
          else keywordCitations stats !! k).
Proof.
  unfold count_doc, doc_keys.
  set (stats1 := match doc_references d with Some _ => _ | None => _ end).
  assert (totalReferences stats1
          = match doc_references d with
            | Some refs =>
                js_add (totalReferences stats) (Fin (Z.of_nat (length refs)))
            | None => totalReferences stats
            end
          /\ keywordFreq stats1 = keywordFreq stats
          /\ keywordCitations stats1 = keywordCitations stats) as (E1 & E2 & E3).
  { subst stats1. by destruct (doc_references d). }
  destruct (keywords (doc_paper d)) as [kws|]; simpl.
  - destruct (count_keywords_spec (default 0 (citations_count (doc_paper d)))
                kws ∅ stats1) as (H1 & _ & H3 & H4).
    simpl in *. rewrite H1, E1. split; [done|].
    split; intros k; rewrite ?H3, ?H4, ?E2, ?E3;
      repeat case_decide; try done; exfalso; set_solver.
  - rewrite E1. split; [done|].
    split; intros k; by rewrite ?E2, ?E3.
Qed.

Lemma listing_snoc k data d :
  listing k (data ++ [d])
  = listing k data ++ (if decide (k ∈ doc_keys d) then [d] else []).
Proof.
  unfold listing. rewrite filter_app, filter_cons, filter_nil.
  by destruct (decide (k ∈ doc_keys d)).
Qed.

Lemma sum_list_app l l' : sum_list (l ++ l') = sum_list l + sum_list l'.
Proof. unfold sum_list. induction l as [|x l IH]; simpl; lia. Qed.

Lemma sum_list_one x : sum_list [x] = x.
Proof. unfold sum_list. simpl. lia. Qed.

Lemma sum_list_nonneg l : Forall (fun x => 0 <= x) l -> 0 <= sum_list l.
Proof. unfold sum_list. induction 1; simpl; lia. Qed.

Lemma count_docs_snoc data d :
  count_docs (data ++ [d]) = count_doc (count_docs data) d.
Proof. unfold count_docs. by rewrite fold_left_app. Qed.

(** A sum of integers is exact up to [2^53]. *)
Lemma js_add_exact x y :
  Z.abs (x + y) <= 2 ^ 53 -> js_add (Fin x) (Fin y) = Fin (x + y).
Proof.
  intros H. unfold js_add, to_double.
  by destruct (Z.leb_spec (Z.abs (x + y)) (2 ^ 53)); [|lia].
Qed.

Lemma or_zero_Number m :
  (if truthy_count (Number (Fin m)) then Number (Fin m) else Number (Fin 0))
  = Number (Fin m).
Proof. by destruct m. Qed.


(** The keys of the two counters: the keys that a record lists, except
    [__proto__]. *)
Lemma count_docs_keys data k :
  (is_Some (keywordFreq (count_docs data) !! k)
   <-> listing k data <> [] /\ k <> proto)
  /\ (is_Some (keywordCitations (count_docs data) !! k)
      <-> listing k data <> [] /\ k <> proto).
Proof.
  induction data as [|d data [IH1 IH2]] using rev_ind.
  - split; (split; [by intros [? [=]]|by intros [? _]]).
  - rewrite count_docs_snoc.
    destruct (count_doc_spec (count_docs data) d) as (_ & H2 & H3).
    simpl in *. rewrite H2, H3, listing_snoc.
    destruct (decide (k ∈ doc_keys d)) as [Hk|Hk].
    + destruct (decide (k = proto)) as [->|Hp].
      * rewrite !decide_False by tauto. rewrite IH1, IH2.
        split; split; intros [? ?]; done.
      * rewrite !decide_True by done.
        split; split; try done; intros _; (split; [|done]);
          by destruct (listing k data).
    + rewrite !decide_False by tauto. by rewrite app_nil_r.
Qed.

Lemma totalReferences_exact data :
  let refs d := Z.of_nat (length (default [] (doc_references d))) in
  sum_list (refs <$> data) <= 2 ^ 53 ->
  totalReferences (count_docs data) = Fin (sum_list (refs <$> data)).
Proof.
  intros refs. induction data as [|d data IH] using rev_ind; [done|].
  rewrite fmap_app, sum_list_app, fmap_cons, fmap_nil, sum_list_one.
  intros Hsum.
  assert (0 <= sum_list (refs <$> data)) as Hpos.
  { apply sum_list_nonneg, Forall_fmap, Forall_forall. intros x _. simpl.
    unfold refs. lia. }
  assert (0 <= refs d) as Hd by (unfold refs; lia).
  rewrite count_docs_snoc.
  destruct (count_doc_spec (count_docs data) d) as (H1 & _ & _).
  simpl in H1. rewrite H1, IH by lia.
  destruct (doc_references d) as [rs|] eqn:Er.
  - assert (refs d = Z.of_nat (length rs)) as Erefs
      by (unfold refs; by rewrite Er).
    rewrite Erefs in *. apply js_add_exact. lia.
  - assert (refs d = 0) as -> by (unfold refs; by rewrite Er).
    f_equal. lia.
Qed.

Lemma count_docs_exact data k :
  let cites d := default 0 (citations_count (doc_paper d)) in
  inherited k = false ->
  listing k data <> [] ->
  Z.of_nat (length (listing k data)) <= 2 ^ 53 ->
  Forall (fun d => 0 <= cites d) (listing k data) ->
  sum_list (cites <$> listing k data) <= 2 ^ 53 ->
  keywordFreq (count_docs data) !! k
  = Some (Number (Fin (Z.of_nat (length (listing k data)))))
  /\ keywordCitations (count_docs data) !! k
     = Some (Number (Fin (sum_list (cites <$> listing k data)))).
Proof.
  intros cites Hk. assert (k <> proto) as Hp by (intros ->; done).
  induction data as [|d data IH] using rev_ind; [done|].
  rewrite listing_snoc, count_docs_snoc.
  destruct (count_doc_spec (count_docs data) d) as (_ & H2 & H3).
  simpl in H2, H3. rewrite H2, H3.
  destruct (decide (k ∈ doc_keys d)) as [Hd|Hd].
  2: { rewrite !decide_False by tauto. rewrite app_nil_r. apply IH. }
  rewrite !decide_True by done.
  rewrite length_app, fmap_app, sum_list_app. simpl.
  intros _ Hlen [Hall Hc]%Forall_app Hsum.
  apply Forall_cons_1 in Hc as [Hc _].
  pose proof (sum_list_nonneg (cites <$> listing k data)) as Hpos.
  rewrite Forall_fmap in Hpos. specialize (Hpos Hall).
  fold (cites d). unfold counted, get_or. rewrite Hk.
  destruct (decide (listing k data = [])) as [E|Hne].
  - destruct (count_docs_keys data k) as [Hf Hc'].
    assert (keywordFreq (count_docs data) !! k = None) as ->.
    { apply eq_None_not_Some. rewrite Hf. tauto. }
    assert (keywordCitations (count_docs data) !! k = None) as ->.
    { apply eq_None_not_Some. rewrite Hc'. tauto. }
    rewrite E in *. cbn [plus length fmap list_fmap] in *.
    unfold sum_list in *. cbn [fold_right] in *.
    rewrite !js_add_exact by lia.
    split; do 3 f_equal; lia.
  - destruct IH as [-> ->]; try done; try lia.
    rewrite !or_zero_Number. cbn [plus].
    rewrite !js_add_exact by lia.
    split; do 3 f_equal; lia.
Qed.

(** X17: the counters of the fallback of the analytics page, for a key
    that [Object.prototype] does not have and sums that a double holds
    exactly, which are those up to [2^53].  [keywordFreq] holds the number
    of records that list the key, one for each record however often the
    record repeats the keyword, and [keywordCitations] the sum of the
    citation counts of these records, none of them negative; a key that
    no record lists has no entry; [totalReferences] is the sum of the
    lengths of the reference arrays. *)
Theorem keyword_counters data k :
  let stats := count_docs data in
  let docs := listing k data in
  let cites d := default 0 (citations_count (doc_paper d)) in
  let refs d := Z.of_nat (length (default [] (doc_references d))) in
  inherited k = false ->
  Z.of_nat (length data) <= 2 ^ 53 ->
  sum_list (refs <$> data) <= 2 ^ 53 ->
  Forall (fun d => 0 <= cites d) docs ->
  sum_list (cites <$> docs) <= 2 ^ 53 ->
  totalReferences stats = Fin (sum_list (refs <$> data))
  /\ (docs = [] ->
       keywordFreq stats !! k = None /\ keywordCitations stats !! k = None)
  /\ (docs <> [] ->
       keywordFreq stats !! k = Some (Number (Fin (Z.of_nat (length docs))))
       /\ keywordCitations stats !! k
          = Some (Number (Fin (sum_list (cites <$> docs))))
       /\ 1 <= Z.of_nat (length docs) <= Z.of_nat (length data)).
Proof.
  intros stats docs cites refs Hk Hlen Hrefs Hpos Hsum.
  pose proof (length_filter (fun d => k ∈ doc_keys d) data) as Hfilter.
  fold (listing k data) in Hfilter. fold docs in Hfilter.
  split; [by apply totalReferences_exact|]. split.
  - intros E. destruct (count_docs_keys data k) as [Hf Hc].
    fold stats docs in Hf, Hc.
    split; apply eq_None_not_Some; rewrite ?Hf, ?Hc; tauto.
  - intros Hne.
    destruct (count_docs_exact data k Hk Hne) as [Hf Hc]; try done;
      [fold docs; lia|].
    split; [done|]. split; [done|].
    destruct docs; [done|]. simpl in *. lia.
Qed.



Lemma js_sort_desc {A} (g : A -> Z) (l : list A) :
  StronglySorted (fun a b => g b <= g a) (js_sort (fun a b => g b - g a) l).
Proof.
  induction l as [|x l IH]; simpl; [constructor|].
  revert IH. generalize (js_sort (fun a b => g b - g a) l). clear l.
  intros l. induction 1 as [|y l Hs IH Hall]; simpl; [repeat constructor|].
  destruct (Z.leb_spec (g y - g x) 0).
  - constructor; [by constructor|]. constructor; [lia|].
    eapply Forall_impl; [exact Hall|]. simpl. intros; lia.
  - constructor; [done|]. rewrite sort_insert_perm. constructor; [lia|done].
Qed.

Lemma js_sort_stable {A} (g : A -> Z) w (l : list A) :
  filter (fun a => g a = w) (js_sort (fun a b => g b - g a) l)
  = filter (fun a => g a = w) l.
Proof.
  induction l as [|x l IH]; [done|].
  simpl js_sort. rewrite (filter_cons _ x l), <- IH. clear IH.
  generalize (js_sort (fun a b => g b - g a) l). intros l'.
  induction l' as [|y l' IH]; simpl; [done|].
  destruct (Z.leb_spec (g y - g x) 0); [by rewrite filter_cons|].
  rewrite (filter_cons _ y), IH, !filter_cons.
  repeat case_decide; try done; lia.
Qed.

Lemma sorted_take_drop {A} (R : relation A) (l : list A) n x y :
  StronglySorted R l -> x ∈ take n l -> y ∈ drop n l -> R x y.
Proof.
  intros Hs. rewrite <- (take_drop n l) in Hs.
  by apply StronglySorted_app_1_elem_of.
Qed.

(** X19: the list of the most cited papers shows the first 6 papers, or all
    of them when they are fewer, in the order of their citation counts,
    greatest first, papers with equal counts in the order of the data; no
    paper left out has more citations than a paper shown. *)
Theorem top_cited_rows data :
  let value (d : Doc) := default 0 (citations_count (doc_paper d)) in
  let sorted := js_sort by_citations_count data in
  let rows := renderList (topCited data) 6 in
  rows = (fun d => (title (doc_paper d), value d)) <$> take 6 sorted
  /\ length rows = Nat.min 6 (length data)
  /\ sorted ≡ₚ data
  /\ StronglySorted (fun a b => value b <= value a) sorted
  /\ (forall w, filter (fun d => value d = w) sorted
                = filter (fun d => value d = w) data)
  /\ (forall x y, x ∈ take 6 sorted -> y ∈ drop 6 sorted -> value y <= value x).
Proof.
  intros value sorted rows.
  assert (StronglySorted (fun a b => value b <= value a) sorted) as Hs
    by apply (js_sort_desc value).
  assert (length sorted = length data) as Hlen
    by (subst sorted; by rewrite js_sort_perm).
  split; [|split; [|split; [|split; [|split]]]].
  - subst rows. unfold renderList, topCited. rewrite length_fmap. fold sorted.
    rewrite <- fmap_take. f_equal.
    destruct (Z.min_spec (Z.of_nat (length sorted)) 6) as [[? ->]|[? ->]].
    + rewrite Nat2Z.id. by rewrite !take_ge by lia.
    + done.
  - subst rows. unfold renderList, topCited. rewrite length_take, !length_fmap.
    fold sorted. lia.
  - apply js_sort_perm.
  - done.
  - intros w. apply (js_sort_stable value).
  - intros x y Hx Hy. by apply (sorted_take_drop _ sorted 6 x y Hs).
Qed.

End analytics.

Section title_cache.

Lemma id_title_calls_cached replies map :
  id_title_calls replies (Some map)
  = ((fun _ => (false, map)) <$> replies, Some map).
Proof.
  induction replies as [|reply replies IH]; [done|].
  simpl. by rewrite IH.
Qed.

Lemma getIdTitleMap_readable reply data :
  readable reply = Some data ->
  getIdTitleMap reply None
  = (true, fold_left add_entry data ∅, Some (fold_left add_entry data ∅)).
Proof.
  destruct reply as [|[] [[| |]|]]; simpl; try done; by intros [= <-].
Qed.

Lemma getIdTitleMap_unreadable reply :
  readable reply = None -> getIdTitleMap reply None = (true, ∅, None).
Proof. destruct reply as [|[] [[| |]|]]; simpl; done. Qed.

(** X20: [getIdTitleMap] asks the server at each call until a reply is read
    to its end; the calls before return the empty map and cache nothing;
    this call and all the later ones return the same map, the later ones
    without a request, whatever the server would answer then. *)
Theorem title_cache_protocol before reply after data :
  Forall (fun r => readable r = None) before ->
  readable reply = Some data ->
  let map := fold_left add_entry data ∅ in
  id_title_calls (before ++ reply :: after) None
  = (((fun _ => (true, ∅)) <$> before)
     ++ (true, map) :: ((fun _ => (false, map)) <$> after),
     Some map).
Proof.
  intros Hbefore Hreply map.
  induction Hbefore as [|r before Hr _ IH].
  - simpl app. cbn [id_title_calls].
    rewrite (getIdTitleMap_readable _ _ Hreply).
    fold map. by rewrite id_title_calls_cached.
  - rewrite <- app_comm_cons. cbn [id_title_calls].
    rewrite (getIdTitleMap_unreadable _ Hr). by rewrite IH.
Qed.

Lemma with_id_snoc rid data p :
  with_id rid (data ++ [p])
  = with_id rid data
    ++ (if decide ((p ≫= entry_id) = Some rid) then [p] else []).
Proof.
  unfold with_id. rewrite filter_app, filter_cons, filter_nil.
  by destruct (decide ((p ≫= entry_id) = Some rid)).
Qed.

Lemma add_entries_lookup data map rid :
  rid <> [] -> rid <> proto ->
  fold_left add_entry data map !! rid
  = match last (with_id rid data) with
    | Some (Some e) =>
        Some match entry_title e with
             | Some (c :: t) => c :: t
             | _ => rid
             end
    | _ => map !! rid
    end.
Proof.
  intros Hrid Hp. induction data as [|p data IH] using rev_ind; [done|].
  rewrite fold_left_app, with_id_snoc. simpl.
  destruct (decide ((p ≫= entry_id) = Some rid)) as [E|E].
  - rewrite last_snoc. destruct p as [e|]; [|done]. simpl in E.
    unfold add_entry. rewrite E. destruct rid as [|c i]; [done|].
    by rewrite lookup_assign_eq.
  - rewrite app_nil_r, <- IH. unfold add_entry.
    destruct p as [e|]; [|done]. simpl in E.
    destruct (entry_id e) as [[|c i]|]; try done.
    rewrite lookup_assign_ne; [done|]. congruence.
Qed.

(** The map never has [__proto__] as a key. *)
Lemma add_entries_proto data map :
  fold_left add_entry data map !! proto = map !! proto.
Proof.
  induction data as [|p data IH] using rev_ind; [done|].
  rewrite fold_left_app. simpl. rewrite <- IH. unfold add_entry.
  destruct p as [e|]; [|done].
  destruct (entry_id e) as [[|c i]|]; try done. apply lookup_assign_proto.
Qed.

(** X21: the label of the button of a reference, [idTitleMap[rid] || rid].
    For an id that [Object.prototype] does not have, it is the title of
    the last record of the array that has this id, when this record has a
    title that is not empty, and the id itself otherwise, also when no
    record has this id.  For an id that [Object.prototype] has, it is the
    inherited object when no record has this id, and always for
    [__proto__].  It is never the empty string. *)
Theorem ref_label_spec data rid :
  rid <> [] ->
  let label := ref_label (fold_left add_entry data ∅) rid in
  (inherited rid = false ->
   label = Prim match last (with_id rid data) with
                | Some (Some e) =>
                    match entry_title e with
                    | Some (c :: t) => c :: t
                    | _ => rid
                    end
                | _ => rid
                end)
  /\ (inherited rid = true -> with_id rid data = [] \/ rid = proto ->
      label = Proto rid)
  /\ label <> Prim [].
Proof.
  intros Hrid label. subst label. unfold ref_label, get_or.
  destruct (decide (rid = proto)) as [->|Hp].
  { rewrite add_entries_proto, lookup_empty. by repeat split. }
  rewrite (add_entries_lookup _ _ _ Hrid Hp), lookup_empty.
  split; [|split].
  - intros ->. destruct (last (with_id rid data)) as [[e|]|]; try done.
    destruct (entry_title e) as [[|c t]|]; try done; by destruct rid.
  - intros -> [->|?]; done.
  - destruct (last (with_id rid data)) as [[e|]|].
    + destruct (entry_title e) as [[|c t]|]; try done; by destruct rid.
    + destruct (inherited rid); [done|]. by intros [=].
    + destruct (inherited rid); [done|]. by intros [=].
Qed.

End title_cache.

Section mode.

Lemma saved_mode_stored mode page :
  mode <> ""%string ->
  localStorage page !! "researcher_mode"%string = Some mode ->
  saved_mode page = mode.
Proof. unfold saved_mode. intros Hne ->. by destruct mode. Qed.

(** X22: the mode that a page stored last is the mode that the pages
    start with: after [setMode] or the [setMode] of results.js wrote a
    mode that is not the empty string, [initMode] of app.js with this
    storage sets this mode again and leaves the storage as it is, and so
    does results.js when the address holds a query that is not blank; on
    a blank query results.js returns before it comes to the mode, and the
    page stays as it is.  With nothing stored the mode is 'beginner', and
    the two buttons are never both active. *)
Theorem mode_survives_reload mode page page' :
  mode <> ""%string ->
  localStorage page' = localStorage (setMode mode page)
  \/ localStorage page' = localStorage (setMode_results mode page) ->
  initMode page' = setMode mode page'
  /\ (forall q, trim (default [] q) <> [] ->
        init_results q page' = setMode_results mode page')
  /\ (forall q, trim (default [] q) = [] -> init_results q page' = page')
  /\ localStorage (initMode page') = localStorage page'
  /\ (forall p, localStorage p !! "researcher_mode"%string = None ->
        data_mode (initMode p) = "beginner"%string
        /\ beginner_active (initMode p) = true)
  /\ (forall m p,
        beginner_active (setMode m p) && researcher_active (setMode m p)
        = false).
Proof.
  intros Hne Hstore.
  assert (localStorage page' !! "researcher_mode"%string = Some mode) as Hget.
  { destruct Hstore as [-> | ->]; simpl; apply lookup_insert_eq. }
  assert (saved_mode page' = mode) as Hsaved by by apply saved_mode_stored.
  unfold initMode, init_results. rewrite Hsaved.
  split; [done|]. split; [|split; [|split; [|split]]].
  - intros q Hq. by destruct (trim (default [] q)).
  - by intros q ->.
  - simpl. by apply insert_id.
  - intros p Hp. unfold saved_mode. by rewrite Hp.
  - intros m p. simpl. repeat case_bool_decide; try done.
    subst. discriminate.
Qed.

End mode.

End WithLowerCase.

(** ** The statements at concrete inputs *)

Example split_ws_title :
  split_ws (str "Deep  learning at scale")
  = [str "Deep"; str "learning"; str "at"; str "scale"].
Proof. reflexivity. Qed.

Example split_ws_trailing : split_ws (str "a ") = [str "a"; []].
Proof. reflexivity. Qed.

Example trim_keyword : trim (str "  Graph neural network ") = str "Graph neural network".
Proof. reflexivity. Qed.

Example key_order_astral : key_ltb 0x1F600 0xFF41 = true /\ (0xFF41 <? 0x1F600)%N = true.
Proof. by vm_compute. Qed.

Example suggestions_limit :
  suggestions toLowerCase_ascii
    (trie_of toLowerCase_ascii [str "Tree"; str "trie"; str "Graph"; str "tr"])
    (str "TR") 2
  = [str "tr"; str "tree"].
Proof. by vm_compute. Qed.

(** Two keywords that differ by more than their case are two terms. *)
Example suggestion_list_transformers :
  let papers :=
    [ {| keywords := Some [Some (str "transformers")]; title := None;
         citations_count := Some 10 |};
      {| keywords := Some [Some (str "Transformer")]; title := None;
         citations_count := Some 50 |} ] in
  suggestion_list toLowerCase_ascii
    (index_papers toLowerCase_ascii Rev2 papers init) (str "trans")
  = [ {| key := str "transformer"; term := Prim (str "Transformer");
         citations := Prim (Fin 50) |};
      {| key := str "transformers"; term := Prim (str "transformers");
         citations := Prim (Fin 10) |} ].
Proof. by vm_compute. Qed.

Lemma prefixMatches_complete_witness :
  let terms := [str "Tree"; str "trie"; str "Graph"] in
  str "Tree" ∈ terms /\ str "Tree" <> []
  /\ ci_prefix toLowerCase_ascii (str "TR") (str "Tree")
  /\ Z.of_nat (length (filter (ci_prefix toLowerCase_ascii (str "TR")) terms)) <= 2
  /\ str "tree"
       ∈ suggestions toLowerCase_ascii (trie_of toLowerCase_ascii terms)
           (str "TR") 2.
Proof.
  intros terms.
  assert (str "Tree" ∈ terms) as H1 by (by left).
  assert (str "Tree" <> []) as H2 by done.
  assert (ci_prefix toLowerCase_ascii (str "TR") (str "Tree")) as H3
    by (by exists (str "ee")).
  assert (Z.of_nat (length (filter (ci_prefix toLowerCase_ascii (str "TR")) terms))
          <= 2) as H4 by (by vm_compute).
  repeat split; try assumption.
  exact (prefixMatches_complete toLowerCase_ascii terms _ _ _ H1 H2 H3 H4).
Defined.

(** C4 as the specification words it fails on the keys U+FF41 and U+1F600:
    the second one is encoded by the code units D83D DE00 and is listed
    first, although its code point is the greater one. *)
Lemma prefixMatches_codepoint_order_fails :
  let out :=
    suggestions toLowerCase_ascii
      (trie_of toLowerCase_ascii [[0xFF41]; [0x1F600]]%N) [] 10 in
  out = [[0x1F600]; [0xFF41]]%N /\ ~ Sorted (lex_le N.ltb) out.
Proof.
  split; [by vm_compute|].
  intros Hs. vm_compute in Hs.
  apply Sorted_inv in Hs as [_ Hhd]. apply HdRel_inv in Hhd as [[=]|[=]].
Qed.

Lemma prefixMatches_bounded_ordered_witness :
  let terms := [str "tree"; str "trie"] in
  0 <= 0
  /\ (forall T, T ∈ terms -> T <> [] -> ~ ci_prefix toLowerCase_ascii (str "x") T)
  /\ suggestions toLowerCase_ascii (trie_of toLowerCase_ascii terms) (str "x") 0
     = [].
Proof.
  intros terms.
  destruct (prefixMatches_bounded_ordered toLowerCase_ascii terms (str "x") 0)
    as (_ & _ & Hlimit & Hnone).
  split; [done|]. split; [|by apply Hlimit].
  intros T HT _. apply list_elem_of_In in HT.
  destruct HT as [<-|[<-|[]]]; intros [k Hk]; by vm_compute in Hk.
Defined.

(** C8 as the specification words it fails on a term of one space. *)
Lemma insert_blank_changes_trie :
  insert toLowerCase_ascii (str " ") new_TrieNode <> new_TrieNode.
Proof. by vm_compute. Qed.

Lemma insert_empty_noop_witness :
  str " " <> []
  /\ mem (toLowerCase_ascii (str " "))
       (insert toLowerCase_ascii (str " ") new_TrieNode) = true.
Proof.
  assert (str " " <> []) as H by done. split; [exact H|].
  exact (proj2 (insert_empty_noop toLowerCase_ascii new_TrieNode) (str " ") H).
Defined.

(** C2 as the specification words it fails on two papers that spell the
    same keyword in two ways: the second spelling is the one kept. *)
Lemma display_first_writer_fails :
  let papers :=
    [ {| keywords := Some [Some (str "Transformer")]; title := None;
         citations_count := Some 50 |};
      {| keywords := Some [Some (str "TRANSFORMER")]; title := None;
         citations_count := Some 10 |} ] in
  let st := index_papers toLowerCase_ascii Rev2 papers init in
  fst <$> head (recorded_as toLowerCase_ascii (str "transformer")
                  (recordings Rev2 papers))
  = Some (str "Transformer")
  /\ displayMap st !! str "transformer" <> Some (str "Transformer")
  /\ display_of st (str "transformer") = Prim (str "TRANSFORMER").
Proof. by vm_compute. Qed.

Lemma display_last_writer_wins_witness :
  let papers :=
    [ {| keywords := Some [Some (str "Transformer")]; title := None;
         citations_count := Some 50 |};
      {| keywords := Some [Some (str "TRANSFORMER")]; title := None;
         citations_count := Some 10 |} ] in
  let st := index_papers toLowerCase_ascii Rev2 papers init in
  str "transformer" <> proto
  /\ displayMap st !! str "transformer" = Some (str "TRANSFORMER")
  /\ display_of st (str "transformer") = Prim (str "TRANSFORMER").
Proof.
  intros papers st.
  assert (str "transformer" <> proto) as H by done.
  destruct (display_last_writer_wins toLowerCase_ascii Rev2 papers
              (str "transformer") H) as [H1 H2].
  split; [exact H|]. split.
  - etrans; [exact H1|]. by vm_compute.
  - apply (H2 (str "TRANSFORMER") 10); [by vm_compute|done].
Defined.

Lemma weight_is_max_witness :
  let papers :=
    [ {| keywords := Some [Some (str "Transformer")]; title := None;
         citations_count := Some 10 |};
      {| keywords := Some [Some (str "TRANSFORMER")]; title := None;
         citations_count := Some 50 |} ] in
  let l := str "transformer" in
  inherited l = false
  /\ (recorded_as toLowerCase_ascii l (recordings Rev2 papers)).*2 = [10; 50]
  /\ Forall (fun w => 0 <= w) [10; 50]
  /\ citations_of (index_papers toLowerCase_ascii Rev2 papers init) l
     = Prim (Fin (max_of 10 [50])).
Proof.
  intros papers l.
  assert (inherited l = false) as H0 by reflexivity.
  assert ((recorded_as toLowerCase_ascii l (recordings Rev2 papers)).*2
          = [10; 50]) as H1 by (by vm_compute).
  assert (Forall (fun w => 0 <= w) [10; 50]) as H2
    by (repeat constructor; lia).
  split; [exact H0|]. split; [exact H1|]. split; [exact H2|].
  exact (proj1 (weight_is_max toLowerCase_ascii Rev2 papers l H0) 10 [50] H1 H2).
Defined.

(** C5 on a keyword that is listed by two papers and whose lower-cased
    form is 'constructor', a property of [Object.prototype].  The first
    recording reads the inherited function [Object] for
    [citationsMap[l] || 0]; [Math.max] makes NaN of it, and NaN is stored.
    The second recording reads NaN, which counts as 0, and stores its own
    weight.  The weight of the first paper is lost: the lookup gives 3,
    not the greatest weight 5, and it gives 5 when the two papers come in
    the other order. *)
Theorem constructor_weight_not_max :
  let paper k c :=
    {| keywords := Some [Some (str k)]; title := None;
       citations_count := Some c |} in
  let papers := [paper "Constructor" 5; paper "constructor" 3] in
  let l := str "constructor" in
  (recorded_as toLowerCase_ascii l (recordings Rev2 papers)).*2 = [5; 3]
  /\ citationsMap
       (index_papers toLowerCase_ascii Rev2 [paper "Constructor" 5] init) !! l
     = Some NaN
  /\ citations_of (index_papers toLowerCase_ascii Rev2 papers init) l
     = Prim (Fin 3)
  /\ max_of 5 [3] = 5
  /\ citations_of (index_papers toLowerCase_ascii Rev2 (reverse papers) init) l
     = Prim (Fin 5)
  /\ citations_of (index_papers toLowerCase_ascii Rev1 papers init) l
     = Prim (Fin 3).
Proof. by vm_compute. Qed.

(** C1 on a corpus with the keyword '__proto__'.  The assignments
    [displayMap[l] = t] and [citationsMap[l] = ...] store nothing under
    this key, and the lookups for the suggestion give [Object.prototype]
    as its term and as its weight.  The differences of the comparison
    function are NaN for it, the entries stay in the order of the trie,
    weights 1, an object, 7; and no order of these entries is an order by
    weight descending. *)
Theorem proto_keyword_breaks_ranking :
  let paper k c :=
    {| keywords := Some [Some (str k)]; title := None;
       citations_count := Some c |} in
  let papers := [paper "__a" 1; paper "__proto__" 5; paper "__z" 7] in
  let st := index_papers toLowerCase_ascii Rev2 papers init in
  let list := suggestion_list toLowerCase_ascii st (str "__") in
  suggestions toLowerCase_ascii (trie st) (str "__") 8
  = [str "__a"; proto; str "__z"]
  /\ citationsMap st !! proto = None
  /\ list
     = [ {| key := str "__a"; term := Prim (str "__a");
            citations := Prim (Fin 1) |};
         {| key := proto; term := Proto proto; citations := Proto proto |};
         {| key := str "__z"; term := Prim (str "__z");
            citations := Prim (Fin 7) |} ]
  /\ ~ StronglySorted heavier list
  /\ (forall l, l ≡ₚ list -> ~ StronglySorted heavier l).
Proof.
  intros paper papers st list.
  assert (list
          = [ {| key := str "__a"; term := Prim (str "__a");
                 citations := Prim (Fin 1) |};
              {| key := proto; term := Proto proto; citations := Proto proto |};
              {| key := str "__z"; term := Prim (str "__z");
                 citations := Prim (Fin 7) |} ]) as E by (by vm_compute).
  assert (forall l, l ≡ₚ list -> ~ StronglySorted heavier l) as H.
  { intros l Hl.
    apply (object_weight_unsorted l
             {| key := proto; term := Proto proto; citations := Proto proto |}
             proto); [|done|].
    - rewrite Hl, E. right. left.
    - rewrite Hl, E. simpl. lia. }
  split; [by vm_compute|]. split; [by vm_compute|]. split; [exact E|].
  split; [by apply H|exact H].
Qed.

(** C6 on a paper whose title starts with a space, in the first revision:
    the first token of the title is the empty string; [insert] returns at
    once on it, and the two objects of the index get an entry for it all
    the same, an entry that no terminal node spells. *)
Theorem title_token_breaks_invariant :
  let papers :=
    [ {| keywords := None; title := Some (str " a");
         citations_count := Some 7 |} ] in
  let st := index_papers toLowerCase_ascii Rev1 papers init in
  split_ws (str " a") = [[]; str "a"]
  /\ displayMap st !! [] = Some []
  /\ citationsMap st !! [] = Some (Fin 7)
  /\ mem [] (trie st) = false
  /\ words (trie st) = [str "a"].
Proof. by vm_compute. Qed.

Lemma load_degrades_silently_witness :
  let fetch := fun _ : string => Rejected in
  failed (fetch (API_ALL Rev2))
  /\ Forall (fun u => failed (fetch u)) FALLBACK_PAPERS
  /\ loadAllTermsAndBuildTrie toLowerCase_ascii Rev2 fetch init
     = ("/api/all" :: FALLBACK_PAPERS, init)%string.
Proof.
  intros fetch.
  assert (failed (fetch (API_ALL Rev2))) as H1 by exact I.
  assert (Forall (fun u => failed (fetch u)) FALLBACK_PAPERS) as H2
    by (repeat constructor).
  split; [exact H1|]. split; [exact H2|].
  pose proof (load_degrades_silently toLowerCase_ascii native_code Rev2 fetch
                H1) as H.
  destruct (loadAllTermsAndBuildTrie toLowerCase_ascii Rev2 fetch init)
    as [requests st].
  destruct H as [_ H]. destruct (H H2) as (-> & -> & _). reflexivity.
Defined.

Lemma arrows_cycle_witness :
  let ui :=
    {| inputValue := str "tr"; shown := true;
       items := [str "tree"; str "trie"; str "trio"];
       currentSelectionIndex := -1; searched := None |} in
  shown ui = true /\ 1 <= 3 /\ -1 <= -1 < 3 - 1 /\ 3 = 3 /\ -1 = -1
  /\ currentSelectionIndex (on_keydown ArrowDown ui) = 0
  /\ currentSelectionIndex
       (fold_left press [ArrowDown; ArrowDown; ArrowDown; ArrowDown] ui) = 0.
Proof.
  intros ui.
  assert (shown ui = true) as H1 by done.
  assert (1 <= Z.of_nat (length (items ui))) as H2 by (simpl; lia).
  split; [exact H1|]. split; [done|]. split; [done|]. split; [done|].
  split; [done|].
  destruct (arrows_cycle ui H1 H2) as (Hdown & _ & _ & _ & H).
  split; [apply Hdown; simpl; lia|apply H; reflexivity].
Defined.

Lemma arrow_up_from_none_witness :
  let ui :=
    {| inputValue := str "tr"; shown := true;
       items := [str "tree"; str "trie"; str "trio"];
       currentSelectionIndex := -1; searched := None |} in
  shown ui = true /\ 1 <= 3 /\ currentSelectionIndex ui = -1
  /\ currentSelectionIndex (on_keydown ArrowUp ui) = 2.
Proof.
  intros ui.
  assert (shown ui = true) as H1 by done.
  assert (1 <= Z.of_nat (length (items ui))) as H2 by (simpl; lia).
  assert (currentSelectionIndex ui = -1) as H3 by done.
  split; [exact H1|]. split; [done|]. split; [exact H3|].
  exact (proj1 (arrow_up_from_none ui H1 H2 H3)).
Defined.

(** ** Further statements at concrete inputs *)

(** The panel shows the term of the key '__proto__' as the text of
    [Object.prototype]. *)
Example proto_keyword_panel :
  let paper k c :=
    {| keywords := Some [Some (str k)]; title := None;
       citations_count := Some c |} in
  let st :=
    index_papers toLowerCase_ascii Rev2
      [paper "__a" 1; paper "__proto__" 5; paper "__z" 7] init in
  items (renderSuggestions toLowerCase_ascii native_code st (str "__")
           {| inputValue := str "__"; shown := false; items := [];
              currentSelectionIndex := -1; searched := None |})
  = [str "__a"; str "[object Object]"; str "__z"].
Proof. by vm_compute. Qed.

(** The counters of the analytics page for the keyword 'constructor' are
    strings, the text of the function [Object] followed by what was added;
    for '__proto__' there is no counter. *)
Example constructor_counters :
  let doc kws c :=
    {| doc_paper := {| keywords := Some kws; title := None;
                       citations_count := Some c |};
       doc_references := None |} in
  let stats :=
    count_docs toLowerCase_ascii
      [ doc [Some (str "Constructor"); Some (str "__proto__"); Some (str "a")] 5;
        doc [Some (str "constructor"); Some (str "a")] 7 ] in
  keywordFreq stats !! str "constructor"
  = Some (Joined (str "constructor") [Fin 1; Fin 1])
  /\ keywordCitations stats !! str "constructor"
     = Some (Joined (str "constructor") [Fin 5; Fin 7])
  /\ keywordFreq stats !! proto = None
  /\ keywordFreq stats !! str "a" = Some (Number (Fin 2))
  /\ keywordCitations stats !! str "a" = Some (Number (Fin 12)).
Proof. by vm_compute. Qed.

(** A sum beyond [2^53] is rounded. *)
Example js_add_rounds :
  js_add (Fin (2 ^ 53)) (Fin 1) = Fin (2 ^ 53)
  /\ js_add (Fin (2 ^ 53)) (Fin 3) = Fin (2 ^ 53 + 4).
Proof. by vm_compute. Qed.


Lemma insert_idempotent_witness :
  let terms := [str "Tree"; str "trie"] in
  str "Tree" ∈ terms
  /\ insert toLowerCase_ascii (str "Tree") (trie_of toLowerCase_ascii terms)
     = trie_of toLowerCase_ascii terms.
Proof.
  intros terms. assert (str "Tree" ∈ terms) as H by (by left).
  split; [exact H|].
  exact (proj2 (insert_idempotent toLowerCase_ascii terms (str "Tree")
                  new_TrieNode) H).
Defined.

Lemma trie_of_set_witness :
  let terms := [str "b"; str "a"; str "b"] in
  let terms' := [str "a"; str "b"] in
  (forall T, T ∈ terms <-> T ∈ terms')
  /\ trie_of toLowerCase_ascii terms = trie_of toLowerCase_ascii terms'.
Proof.
  intros terms terms'.
  assert (forall T, T ∈ terms <-> T ∈ terms') as H.
  { intros T. unfold terms, terms'. rewrite !elem_of_cons, elem_of_nil. tauto. }
  split; [exact H|].
  exact (proj1 (trie_of_set toLowerCase_ascii terms terms' H)).
Defined.

Lemma suggestions_limit_monotone_witness :
  let root := trie_of toLowerCase_ascii [str "tree"; str "trie"; str "tr"] in
  1 <= 2
  /\ suggestions toLowerCase_ascii root (str "t") 1
     `prefix_of` suggestions toLowerCase_ascii root (str "t") 2.
Proof.
  intros root. assert (1 <= 2) as H by lia. split; [exact H|].
  exact (proj1 (suggestions_limit_monotone toLowerCase_ascii root (str "t")
                  1 2 H)).
Defined.

Lemma exact_match_first_witness :
  let root := trie_of toLowerCase_ascii [str "tree"; str "trie"; str "Tr"] in
  mem (toLowerCase_ascii (str "TR")) root = true /\ 1 <= 8
  /\ head (suggestions toLowerCase_ascii root (str "TR") 8) = Some (str "tr").
Proof.
  intros root.
  assert (mem (toLowerCase_ascii (str "TR")) root = true) as H1 by reflexivity.
  assert (1 <= 8) as H2 by lia.
  split; [exact H1|]. split; [exact H2|].
  exact (exact_match_first toLowerCase_ascii root (str "TR") 8 H1 H2).
Defined.

Lemma panel_invariant_witness :
  let ui :=
    {| inputValue := []; shown := true; items := [];
       currentSelectionIndex := -1; searched := None |} in
  let st :=
    index_papers toLowerCase_ascii Rev2
      [ {| keywords := Some [Some (str "Tree"); Some (str "trie")];
           title := None; citations_count := Some 3 |} ] init in
  let events :=
    [ (init, Edit (str "t")); (st, InputTimer); (st, KeyDown ArrowUp);
      (st, KeyDown ArrowDown); (st, PointerDown 5); (st, KeyDown Enter);
      (st, BlurTimer); (st, Focus) ] in
  panel_ok ui
  /\ panel_ok (fold_left (handle toLowerCase_ascii native_code Rev2) events ui).
Proof.
  intros ui st events.
  assert (panel_ok ui) as H by (split; [by left|done]).
  split; [exact H|].
  exact (panel_invariant toLowerCase_ascii native_code Rev2 events ui H).
Defined.

Lemma enter_commits_or_searches_witness :
  let ui :=
    {| inputValue := str "tr"; shown := true;
       items := [str "tree"; str "trie"; str "trio"];
       currentSelectionIndex := 1; searched := None |} in
  panel_ok ui /\ 0 <= currentSelectionIndex ui
  /\ exists t,
       items ui !! Z.to_nat (currentSelectionIndex ui) = Some t
       /\ on_keydown Enter ui
          = {| inputValue := t; shown := false; items := [];
               currentSelectionIndex := -1; searched := searched ui |}.
Proof.
  intros ui.
  assert (panel_ok ui) as H1 by (split; [right; simpl; lia|done]).
  assert (0 <= currentSelectionIndex ui) as H2 by (simpl; lia).
  split; [exact H1|]. split; [exact H2|].
  exact (proj2 (enter_commits_or_searches ui H1) H2).
Defined.

Lemma arrows_undo_each_other_witness :
  let ui :=
    {| inputValue := str "tr"; shown := true;
       items := [str "tree"; str "trie"; str "trio"];
       currentSelectionIndex := 2; searched := None |} in
  shown ui = true
  /\ 0 <= currentSelectionIndex ui < Z.of_nat (length (items ui))
  /\ on_keydown ArrowUp (on_keydown ArrowDown ui) = ui.
Proof.
  intros ui.
  assert (shown ui = true) as H1 by reflexivity.
  assert (0 <= currentSelectionIndex ui < Z.of_nat (length (items ui))) as H2
    by (simpl; lia).
  split; [exact H1|]. split; [exact H2|].
  exact (proj1 (arrows_undo_each_other ui H1 H2)).
Defined.

Lemma arrow_down_cycles_witness :
  let ui :=
    {| inputValue := str "tr"; shown := true;
       items := [str "tree"; str "trie"; str "trio"];
       currentSelectionIndex := -1; searched := None |} in
  shown ui = true /\ 1 <= 3 /\ -1 <= -1 < 3 /\ (1 <= 4)%nat
  /\ currentSelectionIndex (Nat.iter 4 (on_keydown ArrowDown) ui)
     = (-1 + 4) mod 3.
Proof.
  intros ui.
  assert (shown ui = true) as H1 by reflexivity.
  assert (1 <= Z.of_nat (length (items ui))) as H2 by (simpl; lia).
  assert (-1 <= currentSelectionIndex ui < Z.of_nat (length (items ui))) as H3
    by (simpl; lia).
  assert (1 <= 4)%nat as H4 by lia.
  split; [exact H1|]. split; [lia|]. split; [lia|]. split; [exact H4|].
  exact (arrow_down_cycles ui 4 H1 H2 H3 H4).
Defined.

Lemma escapeHtml_no_markup_witness :
  Forall (fun c => c <> 38%N /\ ~ markup c) (str "Graph theory")
  /\ escapeHtml (Some (str "Graph theory")) = str "Graph theory".
Proof.
  assert (Forall (fun c => c <> 38%N /\ ~ markup c) (str "Graph theory")) as H.
  { cbv -[not]. repeat (constructor; [split; [done|]; intros [?|[?|[?|?]]]; done|]).
    constructor. }
  split; [exact H|].
  exact (proj2 (proj2 (escapeHtml_no_markup (Some (str "Graph theory")))) H).
Defined.

Lemma escapeHtml_injective_witness :
  escapeHtml (Some (str "<b>")) = escapeHtml (Some (str "<b>"))
  /\ str "<b>" = str "<b>".
Proof.
  assert (escapeHtml (Some (str "<b>")) = escapeHtml (Some (str "<b>"))) as H
    by reflexivity.
  split; [exact H|].
  exact (escapeHtml_injective (str "<b>") (str "<b>") H).
Defined.

Lemma index_consistent_Rev2_witness :
  let papers :=
    [ {| keywords := Some [Some (str " Tree "); Some (str "TREE")];
         title := Some (str " a"); citations_count := Some 3 |} ] in
  let st := index_papers toLowerCase_ascii Rev2 papers init in
  displayMap st !! str "tree" = Some (str "TREE")
  /\ str "TREE" <> [] /\ trim (str "TREE") = str "TREE"
  /\ toLowerCase_ascii (str "TREE") = str "tree".
Proof.
  intros papers st.
  assert (displayMap st !! str "tree" = Some (str "TREE")) as H
    by (by vm_compute).
  split; [exact H|].
  exact (proj2 (proj2 (index_consistent_Rev2 toLowerCase_ascii papers))
           (str "tree") (str "TREE") H).
Defined.

Lemma ranking_ignores_paper_order_witness :
  let p1 :=
    {| keywords := Some [Some (str "Transformer")]; title := None;
       citations_count := Some 50 |} in
  let p2 :=
    {| keywords := Some [Some (str "transformers"); Some (str "TRANSFORMER")];
       title := None; citations_count := Some 10 |} in
  [p1; p2] ≡ₚ [p2; p1]
  /\ (forall tc, tc ∈ recordings Rev2 [p1; p2] ->
        inherited (toLowerCase_ascii tc.1) = false)
  /\ ranked toLowerCase_ascii
       (index_papers toLowerCase_ascii Rev2 [p1; p2] init) (str "trans")
     = ranked toLowerCase_ascii
         (index_papers toLowerCase_ascii Rev2 [p2; p1] init) (str "trans").
Proof.
  intros p1 p2.
  assert ([p1; p2] ≡ₚ [p2; p1]) as H by apply Permutation_swap.
  assert (forall tc, tc ∈ recordings Rev2 [p1; p2] ->
            inherited (toLowerCase_ascii tc.1) = false) as Hkeys.
  { intros tc Htc. apply list_elem_of_In in Htc.
    destruct Htc as [<-|[<-|[<-|[]]]]; reflexivity. }
  split; [exact H|]. split; [exact Hkeys|].
  exact (ranking_ignores_paper_order toLowerCase_ascii Rev2 _ _ (str "trans")
           H Hkeys).
Defined.


Lemma index_only_misses_empty_token_witness :
  let papers :=
    [ {| keywords := None; title := Some (str " a");
         citations_count := Some 7 |} ] in
  let st := index_papers toLowerCase_ascii Rev1 papers init in
  (is_Some (displayMap st !! []) \/ is_Some (citationsMap st !! []))
  /\ mem [] (trie st) = false
  /\ Rev1 = Rev1 /\ [] = toLowerCase_ascii []
  /\ exists c, ([], c) ∈ recordings Rev1 papers.
Proof.
  intros papers st.
  assert (is_Some (displayMap st !! []) \/ is_Some (citationsMap st !! []))
    as H1 by (left; exists []; by vm_compute).
  assert (mem [] (trie st) = false) as H2 by (by vm_compute).
  split; [exact H1|]. split; [exact H2|].
  exact (index_only_misses_empty_token toLowerCase_ascii Rev1 papers [] H1 H2).
Defined.

Lemma shown_keys_ignore_weights_witness :
  let st :=
    index_papers toLowerCase_ascii Rev2
      [ {| keywords := Some [Some (str "Tree"); Some (str "trie")];
           title := None; citations_count := Some 3 |} ] init in
  8 <= 10
  /\ key <$> suggestion_list toLowerCase_ascii st (str "t")
     ≡ₚ take 8 (suggestions toLowerCase_ascii (trie st) (str "t") 10).
Proof.
  intros st. assert (8 <= 10) as H by lia. split; [exact H|].
  exact (shown_keys_ignore_weights toLowerCase_ascii st (str "t") 10 H).
Defined.

Lemma keyword_counters_witness :
  let doc kws c :=
    {| doc_paper := {| keywords := Some kws; title := None;
                       citations_count := Some c |};
       doc_references := Some [str "r1"; str "r2"] |} in
  let data :=
    [ doc [Some (str "Tree"); Some (str " tree "); None] 5;
      doc [Some (str "TREE"); Some (str "graph")] 7 ] in
  let stats := count_docs toLowerCase_ascii data in
  let docs := listing toLowerCase_ascii (str "tree") data in
  let cites d := default 0 (citations_count (doc_paper d)) in
  let refs d := Z.of_nat (length (default [] (doc_references d))) in
  inherited (str "tree") = false
  /\ Z.of_nat (length data) <= 2 ^ 53
  /\ sum_list (refs <$> data) <= 2 ^ 53
  /\ Forall (fun d => 0 <= cites d) docs
  /\ sum_list (cites <$> docs) <= 2 ^ 53
  /\ docs <> []
  /\ keywordFreq stats !! str "tree" = Some (Number (Fin 2))
  /\ keywordCitations stats !! str "tree" = Some (Number (Fin 12))
  /\ totalReferences stats = Fin 4.
Proof.
  intros doc data stats docs cites refs.
  assert (inherited (str "tree") = false) as H0 by reflexivity.
  assert (Z.of_nat (length data) <= 2 ^ 53) as H1 by (by vm_compute).
  assert (sum_list (refs <$> data) <= 2 ^ 53) as H2 by (by vm_compute).
  assert (Forall (fun d => 0 <= cites d) docs) as H3.
  { apply Forall_forall. intros d Hd. apply list_elem_of_In in Hd.
    destruct Hd as [<-|[<-|[]]]; by vm_compute. }
  assert (sum_list (cites <$> docs) <= 2 ^ 53) as H4 by (by vm_compute).
  assert (docs <> []) as H by (by vm_compute).
  destruct (keyword_counters toLowerCase_ascii data (str "tree") H0 H1 H2 H3 H4)
    as (Ht & _ & Hd).
  destruct (Hd H) as (Hf & Hc & _).
  split; [exact H0|]. split; [exact H1|]. split; [exact H2|].
  split; [exact H3|]. split; [exact H4|]. split; [exact H|].
  split; [|split].
  - etrans; [exact Hf|]. by vm_compute.
  - etrans; [exact Hc|]. by vm_compute.
  - etrans; [exact Ht|]. by vm_compute.
Defined.


Lemma title_cache_protocol_witness :
  let data :=
    [ Some {| entry_id := Some (str "p1"); entry_title := Some (str "Tries") |};
      None ] in
  let before := [NoReply; Replied false None; Replied true (Some JsonOther)] in
  let reply := Replied true (Some (JsonArray data)) in
  let after := [NoReply; reply] in
  let map := fold_left add_entry data ∅ in
  Forall (fun r => readable r = None) before
  /\ readable reply = Some data
  /\ id_title_calls (before ++ reply :: after) None
     = ([(true, ∅); (true, ∅); (true, ∅); (true, map); (false, map);
         (false, map)], Some map).
Proof.
  intros data before reply after map.
  assert (Forall (fun r => readable r = None) before) as H1
    by (repeat constructor).
  assert (readable reply = Some data) as H2 by reflexivity.
  split; [exact H1|]. split; [exact H2|].
  exact (title_cache_protocol before reply after data H1 H2).
Defined.

Lemma ref_label_spec_witness :
  let data :=
    [ Some {| entry_id := Some (str "p1"); entry_title := Some (str "Tries") |};
      Some {| entry_id := Some (str "p2"); entry_title := None |} ] in
  str "p1" <> [] /\ inherited (str "p1") = false
  /\ ref_label (fold_left add_entry data ∅) (str "p1") = Prim (str "Tries").
Proof.
  intros data. assert (str "p1" <> []) as H by done.
  assert (inherited (str "p1") = false) as H' by reflexivity.
  split; [exact H|]. split; [exact H'|].
  exact (proj1 (ref_label_spec data (str "p1") H) H').
Defined.

Lemma mode_survives_reload_witness :
  let page :=
    {| data_mode := ""; localStorage := ∅; beginner_active := false;
       researcher_active := false; hero_subtitle := "";
       query_placeholder := ""; system_status := "" |}%string in
  let page' := setMode_results "researcher" page in
  "researcher"%string <> ""%string
  /\ (localStorage page' = localStorage (setMode "researcher" page)
      \/ localStorage page' = localStorage (setMode_results "researcher" page))
  /\ initMode page' = setMode "researcher" page'.
Proof.
  intros page page'.
  assert ("researcher"%string <> ""%string) as H1 by done.
  assert (localStorage page' = localStorage (setMode "researcher" page)
          \/ localStorage page'
             = localStorage (setMode_results "researcher" page)) as H2
    by (by right).
  split; [exact H1|]. split; [exact H2|].
  exact (proj1 (mode_survives_reload "researcher" page page' H1 H2)).
Defined.
